(** * POWER (Policy learning by Weighting Exploration with the Returns)

    A shallow embedding of [src/algorithm/Power.h]: the three function
    templates [episode], [episodes] and [power] of namespace [RL].

    The templates are generic in the Eigen types [TParameter] and [TWeight];
    the embedding is generic in the same way, over an interface [LinAlg]
    that lists the operations the templates use.  Two instances are given:
    [Binary64.dim1], one-dimensional Eigen matrices over IEEE-754 binary64
    (the [double] of the source), and [Exact.dim1], the same over exact
    rationals.  The world and the noise policy are the collaborators the
    header takes from outside; their hidden state (random generators) is
    threaded explicitly. *)

From Stdlib Require Import List NArith ZArith QArith Bool Lia.
From Stdlib Require Import Floats.
Import ListNotations.

Set Implicit Arguments.
Local Open Scope N_scope.

(** ** [std::size_t] *)

Module SizeT.

Definition modulus : N := 2 ^ 64.

Definition in_range (n : N) : Prop := n < modulus.

(** [++i] on an unsigned 64-bit counter. *)
Definition incr (i : N) : N := (i + 1) mod modulus.

(** [v.size()] of a [std::vector]. *)
Definition size {A : Type} (v : list A) : N := N.of_nat (length v).

End SizeT.

(** ** Partial computations

    [None] stands for an execution that has no defined result: an index
    outside a vector, or a loop that was not given enough fuel.  The header
    has no [throw] and calls nothing that checks its arguments, so a call
    has no third outcome: it returns, or it has no defined result. *)

Definition bind {A B : Type} (c : option A) (k : A -> option B) : option B :=
  match c with
  | Some a => k a
  | None => None
  end.

Notation "x <- c ;; k" := (bind c (fun x => k))
  (at level 61, c at next level, right associativity).
Notation "' p <- c ;; k" := (bind c (fun x => let 'p := x in k))
  (at level 61, p pattern, c at next level, right associativity).

(** [for (std::size_t i = first; i < bound; ++i) body]. *)
Fixpoint for_loop {St : Type} (fuel : nat) (i bound : N)
    (body : N -> St -> option St) (s : St) : option St :=
  match fuel with
  | O => None
  | S fuel' =>
      if i <? bound
      then s' <- body i s ;; for_loop fuel' (SizeT.incr i) bound body s'
      else Some s
  end.

(** The indices a loop from [i] visits in [n] rounds. *)
Fixpoint indices (i : N) (n : nat) : list N :=
  match n with
  | O => []
  | S n' => i :: indices (i + 1) n'
  end.

(** Left-to-right iteration of a partial body over a list of indices. *)
Fixpoint fold_indices {St : Type} (body : N -> St -> option St)
    (l : list N) (s : St) : option St :=
  match l with
  | [] => Some s
  | i :: l' => s' <- body i s ;; fold_indices body l' s'
  end.

(** ** The numeric interface of the templates *)

Class LinAlg : Type := {
  double : Type;
  TParameter : Type;
  TWeight : Type;
  (** literals [0.0], [1.0], [0.5] *)
  d_zero : double;
  d_one : double;
  d_half : double;
  (** [a + b], [a / b], [static_cast<double>(n)] *)
  d_plus : double -> double -> double;
  d_div : double -> double -> double;
  d_of_size_t : N -> double;
  (** [TParameter::Zero()], [TWeight::Zero()], [TWeight::Identity()] *)
  P_Zero : TParameter;
  W_Zero : TWeight;
  W_Identity : TWeight;
  (** [a += b] on vectors and matrices *)
  P_plus : TParameter -> TParameter -> TParameter;
  W_plus : TWeight -> TWeight -> TWeight;
  (** [a * c] and [a /= c] for a scalar [c] *)
  P_times : TParameter -> double -> TParameter;
  W_times : TWeight -> double -> TWeight;
  P_over : TParameter -> double -> TParameter;
  W_over : TWeight -> double -> TWeight;
  (** [m * v], [m.inverse()] *)
  W_apply : TWeight -> TParameter -> TParameter;
  W_inverse : TWeight -> TWeight;
  (** [a * b.transpose()] and [a.transpose() * c * b] *)
  outer : TParameter -> TParameter -> TWeight;
  quadratic : TParameter -> double -> TParameter -> double
}.

(** ** The collaborators: [IWorld] and [continuousNoisePolicy]

    Both are declared outside the header.  [Omega] is whatever the two draw
    their randomness from.  [act] returns the reward and the next state (the
    out-parameter [nextState]); [isTerminal] answers for a state; a policy
    returns the action and the noise sample (the out-parameter
    [epsilon]). *)

Record World (D P Omega : Type) : Type := {
  act : Omega -> P -> D -> D * P * Omega;
  isTerminal : Omega -> P -> bool * Omega
}.

Definition IWorld {L : LinAlg} (Omega : Type) : Type :=
  World double TParameter Omega.

Definition NoisePolicy {L : LinAlg} (Omega : Type) : Type :=
  Omega -> TParameter -> TParameter -> double * TParameter * Omega.

(** ** The episode simulator *)

(** The local variables of [episode] that the [do ... while] loop updates. *)
Record Locals (D P Omega : Type) : Type := {
  state : P;
  rewards : list D;
  epsilons : list P;
  states : list P;
  step : N;
  omega : Omega
}.

Definition Rollout {L : LinAlg} (Omega : Type) : Type :=
  Locals double TParameter Omega.

Section Power.

Context {L : LinAlg} {Omega : Type}.
Variable continuousNoisePolicy : NoisePolicy Omega.
Variable world : IWorld Omega.

(** What a declaration without initialiser holds ([TWeight weightRewards;]
    and the like): any value at all. *)
Variable uninitialized_W : TWeight.
Variable uninitialized_P : TParameter.

(** Lines 32-41: the body of the [do ... while] loop. *)
Definition rollout_body (theta : TParameter) (r : Rollout Omega) : Rollout Omega :=
  let '(action, epsilon, o1) := continuousNoisePolicy (omega r) theta (state r) in
  let '(reward, nextState, o2) := act world o1 (state r) action in
  {| state := nextState;
     rewards := rewards r ++ [reward];
     epsilons := epsilons r ++ [epsilon];
     states := states r ++ [state r];
     step := SizeT.incr (step r);
     omega := o2 |}.

Definition with_omega (r : Rollout Omega) (o : Omega) : Rollout Omega :=
  {| state := state r; rewards := rewards r; epsilons := epsilons r;
     states := states r; step := step r; omega := o |}.

(** Lines 31-42: [do body while (step < episodeLength &&
    !world.isTerminal(state))]; the world is asked only when the first
    conjunct holds. *)
Fixpoint rollout_loop (fuel : nat) (theta : TParameter) (episodeLength : N)
    (r : Rollout Omega) : option (Rollout Omega) :=
  match fuel with
  | O => None
  | S fuel' =>
      let r1 := rollout_body theta r in
      if step r1 <? episodeLength
      then
        let '(terminal, o) := isTerminal world (omega r1) (state r1) in
        if negb terminal
        then rollout_loop fuel' theta episodeLength (with_omega r1 o)
        else Some (with_omega r1 o)
      else Some r1
  end.

(** Lines 26-42. *)
Definition rollout (theta : TParameter) (episodeLength : N) (o : Omega)
  : option (Rollout Omega) :=
  rollout_loop (S (N.to_nat episodeLength)) theta episodeLength
    {| state := P_Zero; rewards := []; epsilons := []; states := [];
       step := 0; omega := o |}.

(** Lines 46-50, on the vector in reverse-iterator order: [reward += *i;
    *i = reward]. *)
Fixpoint reward_to_go_from (reward : double) (reversed : list double) : list double :=
  match reversed with
  | [] => []
  | x :: rest =>
      let reward' := d_plus reward x in
      reward' :: reward_to_go_from reward' rest
  end.

Definition reward_to_go (rewards : list double) : list double :=
  rev (reward_to_go_from d_zero (rev rewards)).

(** Lines 54-59: the weight of step [i]. *)
Definition step_weight (sigma : double) (states : list TParameter) (i : N)
  : option TWeight :=
  if i =? 0
  then Some W_Identity
  else
    s <- nth_error states (N.to_nat i) ;;
    Some (W_times (outer s s) (d_div d_one (quadratic s sigma s))).

(** Lines 54-61: the body of the weighting loop. *)
Definition weighting_body (sigma : double) (rewards : list double)
    (epsilons states : list TParameter) (i : N) (acc : TWeight * TParameter)
  : option (TWeight * TParameter) :=
  let '(weightRewards, epsilonRewards) := acc in
  weight <- step_weight sigma states i ;;
  reward_i <- nth_error rewards (N.to_nat i) ;;
  epsilon_i <- nth_error epsilons (N.to_nat i) ;;
  Some (W_plus weightRewards (W_times weight reward_i),
        P_plus epsilonRewards (P_times (W_apply weight epsilon_i) reward_i)).

(** Lines 46-63: what [episode] does with the recorded trajectory. *)
Definition aggregate (r : Rollout Omega) (weightRewards : TWeight)
    (epsilonRewards : TParameter) (sigma : double)
  : option (double * TWeight * TParameter) :=
  let rewards := reward_to_go (rewards r) in
  let weightRewards := W_Zero in
  let epsilonRewards := P_Zero in
  '(weightRewards, epsilonRewards) <-
    for_loop (S (length rewards)) 0 (SizeT.size rewards)
      (weighting_body sigma rewards (epsilons r) (states r))
      (weightRewards, epsilonRewards) ;;
  total <- nth_error rewards 0 ;;
  Some (total, weightRewards, epsilonRewards).

(** [RL::episode]: the return value, the two out-parameters and the
    collaborators' state after the call. *)
Definition episode (theta : TParameter) (weightRewards : TWeight)
    (epsilonRewards : TParameter) (sigma : double) (episodeLength : N)
    (o : Omega) : option (double * TWeight * TParameter * Omega) :=
  r <- rollout theta episodeLength o ;;
  '(total, weightRewards, epsilonRewards) <-
    aggregate r weightRewards epsilonRewards sigma ;;
  Some (total, weightRewards, epsilonRewards, omega r).

(** Lines 84-89: the body of the loop of [episodes]. *)
Definition episodes_body (theta : TParameter) (episodeLength : N) (i : N)
    (acc : TWeight * TParameter * double * Omega)
  : option (TWeight * TParameter * double * Omega) :=
  let '(sumWeightRewards, sumEpsilonRewards, rewards, o) := acc in
  let weightRewards := uninitialized_W in
  let epsilonRewards := uninitialized_P in
  '(total, weightRewards, epsilonRewards, o') <-
    episode theta weightRewards epsilonRewards d_half episodeLength o ;;
  Some (W_plus sumWeightRewards weightRewards,
        P_plus sumEpsilonRewards epsilonRewards,
        d_plus rewards total, o').

(** [RL::episodes]: the return value (the mean reward), the out-parameter
    [update] and the collaborators' state after the call. *)
Definition episodes (theta : TParameter) (update : TParameter)
    (updateEpisode episodeLength : N) (o : Omega)
  : option (double * TParameter * Omega) :=
  let sumWeightRewards := W_Zero in
  let sumEpsilonRewards := P_Zero in
  let rewards := d_zero in
  '(sumWeightRewards, sumEpsilonRewards, rewards, o') <-
    for_loop (S (N.to_nat updateEpisode)) 0 updateEpisode
      (episodes_body theta episodeLength)
      (sumWeightRewards, sumEpsilonRewards, rewards, o) ;;
  let sumWeightRewards := W_over sumWeightRewards (d_of_size_t updateEpisode) in
  let sumEpsilonRewards := P_over sumEpsilonRewards (d_of_size_t updateEpisode) in
  let update := W_apply (W_inverse sumWeightRewards) sumEpsilonRewards in
  Some (d_div rewards (d_of_size_t updateEpisode), update, o').

(** Lines 102-105: the body of the loop of [power]. *)
Definition power_body (updateEpisode episodeLength : N) (i : N)
    (acc : TParameter * Omega) : option (TParameter * Omega) :=
  let '(theta, o) := acc in
  let update := uninitialized_P in
  '(_, update, o') <- episodes theta update updateEpisode episodeLength o ;;
  Some (P_plus theta update, o').

(** [RL::power]: [theta] and the collaborators' state after the call. *)
Definition power (theta : TParameter) (updates updateEpisode episodeLength : N)
    (o : Omega) : option (TParameter * Omega) :=
  for_loop (S (N.to_nat updates)) 0 updates
    (power_body updateEpisode episodeLength) (theta, o).

(** ** The quantities the specification names

    Sums are accumulated from zero, left to right. *)

Definition d_sum (l : list double) : double := fold_left d_plus l d_zero.
Definition W_sum (l : list TWeight) : TWeight := fold_left W_plus l W_Zero.
Definition P_sum (l : list TParameter) : TParameter := fold_left P_plus l P_Zero.

(** Spec 4.1, weighting pass: the outer product of the state with itself,
    scaled by the reciprocal of the quadratic form. *)
Definition scaled_outer (sigma : double) (s : TParameter) : TWeight :=
  W_times (outer s s) (d_div d_one (quadratic s sigma s)).

(** [W_0 = Identity], [W_i] the scaled outer product of [state_i]. *)
Definition precision_weights (sigma : double) (states : list TParameter)
  : list TWeight :=
  match states with
  | [] => []
  | _ :: later => W_Identity :: map (scaled_outer sigma) later
  end.

(** [weight_sum += W_i * reward[i]] over all steps. *)
Definition weight_sum (weights : list TWeight) (agg : list double) : TWeight :=
  fold_left (fun acc wq => W_plus acc (W_times (fst wq) (snd wq)))
    (combine weights agg) W_Zero.

(** [noise_weighted_sum += W_i * noise_i * reward[i]] over all steps. *)
Definition noise_weighted_sum (weights : list TWeight)
    (noise : list TParameter) (agg : list double) : TParameter :=
  fold_left
    (fun acc weq =>
       P_plus acc (P_times (W_apply (fst (fst weq)) (snd (fst weq))) (snd weq)))
    (combine (combine weights noise) agg) P_Zero.

(** Spec 4.2: [n] calls of the episode simulator, one after the other, with
    the same [theta] and sigma 0.5; the results in call order. *)
Fixpoint run_episodes (n : nat) (theta : TParameter) (max_steps : N)
    (o : Omega) : option (list (double * TWeight * TParameter) * Omega) :=
  match n with
  | O => Some ([], o)
  | S n' =>
      '(total, w, e, o1) <-
        episode theta uninitialized_W uninitialized_P d_half max_steps o ;;
      '(later, o2) <- run_episodes n' theta max_steps o1 ;;
      Some ((total, w, e) :: later, o2)
  end.

(** The trajectories of a batch: [n] rollouts one after the other, each
    from the collaborators' state that the one before left. *)
Fixpoint batch_rollouts (n : nat) (theta : TParameter) (max_steps : N)
    (o : Omega) : option (list (Rollout Omega)) :=
  match n with
  | O => Some []
  | S n' =>
      r <- rollout theta max_steps o ;;
      later <- batch_rollouts n' theta max_steps (omega r) ;;
      Some (r :: later)
  end.

(** Spec 4.2: means of the sums, the normal equation, the mean return. *)
Definition average_episodes (theta : TParameter) (num_episodes max_steps : N)
    (o : Omega) : option (double * TParameter * Omega) :=
  '(results, o') <- run_episodes (N.to_nat num_episodes) theta max_steps o ;;
  let count := d_of_size_t num_episodes in
  let W_bar := W_over (W_sum (map (fun x => snd (fst x)) results)) count in
  let N_bar := P_over (P_sum (map (fun x => snd x) results)) count in
  let mean_return := d_div (d_sum (map (fun x => fst (fst x)) results)) count in
  Some (mean_return, W_apply (W_inverse W_bar) N_bar, o').

(** Spec 4.3: [n] rounds of "call 4.2 with the current theta, then add the
    update vector to theta". *)
Fixpoint improve (n : nat) (theta : TParameter) (num_episodes max_steps : N)
    (o : Omega) : option (TParameter * Omega) :=
  match n with
  | O => Some (theta, o)
  | S n' =>
      '(_, update_vector, o1) <-
        episodes theta uninitialized_P num_episodes max_steps o ;;
      improve n' (P_plus theta update_vector) num_episodes max_steps o1
  end.

End Power.

(** ** Instances *)

(** [Eigen::Matrix<double, 1, 1>] for both [TParameter] and [TWeight]: every
    operation of the interface is one binary64 operation. *)
Module Binary64.

(** Conversion of an unsigned integer to the nearest binary64 value. *)
Definition of_size_t (n : N) : float :=
  SF2Prim (binary_normalize prec emax (Z.of_N n) 0%Z false).

#[export] Instance dim1 : LinAlg := {|
  double := float;
  TParameter := float;
  TWeight := float;
  d_zero := 0%float;
  d_one := 1%float;
  d_half := 0.5%float;
  d_plus := PrimFloat.add;
  d_div := PrimFloat.div;
  d_of_size_t := of_size_t;
  P_Zero := 0%float;
  W_Zero := 0%float;
  W_Identity := 1%float;
  P_plus := PrimFloat.add;
  W_plus := PrimFloat.add;
  P_times := PrimFloat.mul;
  W_times := PrimFloat.mul;
  P_over := PrimFloat.div;
  W_over := PrimFloat.div;
  W_apply := PrimFloat.mul;
  W_inverse := fun w => PrimFloat.div 1%float w;
  outer := PrimFloat.mul;
  quadratic := fun a c b => PrimFloat.mul (PrimFloat.mul a c) b
|}.

(** The classes of a binary64 value, read off its specification. *)
Definition sf_finite (x : spec_float) : bool :=
  match x with
  | S754_zero _ | S754_finite _ _ _ => true
  | S754_infinity _ | S754_nan => false
  end.

Definition sf_zero (x : spec_float) : bool :=
  match x with
  | S754_zero _ => true
  | _ => false
  end.

(** The sign bit of a value; NaN has none. *)
Definition sf_sign (x : spec_float) : option bool :=
  match x with
  | S754_zero s | S754_infinity s | S754_finite s _ _ => Some s
  | S754_nan => None
  end.

(** Not NaN, and the sign bit is clear. *)
Definition sf_nonneg (x : spec_float) : bool :=
  match sf_sign x with
  | Some s => negb s
  | None => false
  end.

(** [+infinity], or a positive value whose exponent is at least [c]. *)
Definition sf_heavy (c : Z) (x : spec_float) : bool :=
  match x with
  | S754_infinity false => true
  | S754_finite false _ e => (c <=? e)%Z
  | _ => false
  end.

(** A world that pays reward [reward] at every step and never reports a
    terminal state; [next] gives the next state. *)
Definition constant_reward_world {Omega : Type} (reward : float)
    (next : Omega -> float -> float -> float * Omega) : IWorld Omega :=
  {| act := fun o s a => let '(s', o') := next o s a in (reward, s', o');
     isTerminal := fun o _ => (false, o) |}.

(** A policy whose noise sample is always zero; [mean] gives the action. *)
Definition zero_noise_policy {Omega : Type}
    (mean : Omega -> float -> float -> float * Omega) : NoisePolicy Omega :=
  fun o theta s => let '(a, o') := mean o theta s in (a, 0%float, o').

(** Two deterministic one-dimensional dynamics: the state never moves; the
    state advances by one at every step. *)
Definition stay (o : unit) (s a : float) : float * unit := (s, o).
Definition advance (o : unit) (s a : float) : float * unit := ((s + 1)%float, o).

(** The linear policy without noise: the action is [theta * state]. *)
Definition linear (o : unit) (theta s : float) : float * unit :=
  ((theta * s)%float, o).

End Binary64.

(** The same one-dimensional matrices over exact rationals. *)
Module Exact.

#[export] Instance dim1 : LinAlg | 10 := {|
  double := Q;
  TParameter := Q;
  TWeight := Q;
  d_zero := 0%Q;
  d_one := 1%Q;
  d_half := (1 # 2)%Q;
  d_plus := Qplus;
  d_div := Qdiv;
  d_of_size_t := fun n => inject_Z (Z.of_N n);
  P_Zero := 0%Q;
  W_Zero := 0%Q;
  W_Identity := 1%Q;
  P_plus := Qplus;
  W_plus := Qplus;
  P_times := Qmult;
  W_times := Qmult;
  P_over := Qdiv;
  W_over := Qdiv;
  W_apply := Qmult;
  W_inverse := fun w => Qdiv 1%Q w;
  outer := Qmult;
  quadratic := fun a c b => Qmult (Qmult a c) b
|}.

(** A world with reward [state + 1] whose state advances by one, terminal
    from state 2 on, and the policy that adds the noise [1/2] to [theta]. *)
Definition counting_world : IWorld (L := dim1) unit :=
  {| act := fun o s a => (Qplus s 1, Qplus s 1, o);
     isTerminal := fun o s => (Qle_bool 2 s, o) |}.

Definition half_noise_policy : NoisePolicy (L := dim1) unit :=
  fun o theta s => (Qplus theta (1 # 2), (1 # 2)%Q, o).

(** A world with reward 1 that reports every state terminal. *)
Definition closed_world : IWorld (L := dim1) unit :=
  {| act := fun o s a => (1%Q, Qplus s 1, o);
     isTerminal := fun o s => (true, o) |}.

(** A world with reward [state + 1] that never reports a terminal state. *)
Definition open_world : IWorld (L := dim1) unit :=
  {| act := fun o s a => (Qplus s 1, Qplus s 1, o);
     isTerminal := fun o s => (false, o) |}.

End Exact.

(** ** Invariants *)

(** Spec 3: the number of rewards, noise samples and states recorded is the
    number of executed steps. *)
Definition recorded {L : LinAlg} {Omega : Type} (r : Rollout Omega) : Prop :=
  SizeT.size (rewards r) = step r /\
  SizeT.size (epsilons r) = step r /\
  SizeT.size (states r) = step r.

(** The three vectors of [b] are those of [a], with entries added at the
    end. *)
Definition extends {L : LinAlg} {Omega : Type} (a b : Rollout Omega) : Prop :=
  (exists more, rewards b = rewards a ++ more) /\
  (exists more, epsilons b = epsilons a ++ more) /\
  (exists more, states b = states a ++ more).

(** * Properties *)

Unset Implicit Arguments.

(** ** Counters and loops *)

Lemma incr_no_wrap (i bound : N) :
  SizeT.in_range bound -> i < bound -> SizeT.incr i = i + 1.
Proof.
  unfold SizeT.in_range, SizeT.incr; intros Hb Hi.
  apply N.mod_small; lia.
Qed.

(** A counting loop with enough fuel visits the indices [i, i+1, ...,
    bound-1] in order, and nothing else: the counter cannot wrap before it
    reaches a bound that is itself a [std::size_t]. *)
Lemma for_loop_fold {St : Type} (bound : N) (body : N -> St -> option St) :
  SizeT.in_range bound ->
  forall (fuel : nat) (i : N) (s : St),
    (N.to_nat (bound - i) < fuel)%nat ->
    for_loop fuel i bound body s
    = fold_indices body (indices i (N.to_nat (bound - i))) s.
Proof.
  intros Hb fuel.
  induction fuel as [|fuel IH]; intros i s Hfuel; [lia|].
  simpl. destruct (i <? bound) eqn:Hlt.
  - apply N.ltb_lt in Hlt.
    replace (N.to_nat (bound - i)) with (S (N.to_nat (bound - (i + 1)))) by lia.
    simpl. rewrite (incr_no_wrap i bound Hb Hlt).
    destruct (body i s) as [s'|]; simpl; [|reflexivity].
    apply IH. lia.
  - apply N.ltb_ge in Hlt.
    replace (bound - i) with 0 by lia. reflexivity.
Qed.

(** More fuel than needed changes nothing. *)
Lemma for_loop_fuel {St : Type} (bound : N) (body : N -> St -> option St) :
  SizeT.in_range bound ->
  forall (fuel fuel' : nat) (i : N) (s : St),
    (N.to_nat (bound - i) < fuel)%nat -> (fuel <= fuel')%nat ->
    for_loop fuel' i bound body s = for_loop fuel i bound body s.
Proof.
  intros Hb fuel fuel' i s H1 H2.
  rewrite !for_loop_fold by (assumption || lia). reflexivity.
Qed.

(** ** The rollout loop *)

Section RolloutFacts.

Context {L : LinAlg} {Omega : Type}.
Variable policy : NoisePolicy Omega.
Variable world : IWorld Omega.

Lemma rollout_body_step (theta : TParameter) (r : Rollout Omega) :
  step (rollout_body policy world theta r) = SizeT.incr (step r).
Proof.
  unfold rollout_body.
  destruct (policy (omega r) theta (state r)) as [[action epsilon] o1].
  destruct (act world o1 (state r) action) as [[reward nextState] o2].
  reflexivity.
Qed.

Lemma rollout_body_sizes (theta : TParameter) (r : Rollout Omega) :
  let r1 := rollout_body policy world theta r in
  SizeT.size (rewards r1) = SizeT.size (rewards r) + 1 /\
  SizeT.size (epsilons r1) = SizeT.size (epsilons r) + 1 /\
  SizeT.size (states r1) = SizeT.size (states r) + 1.
Proof.
  unfold rollout_body, SizeT.size.
  destruct (policy (omega r) theta (state r)) as [[action epsilon] o1].
  destruct (act world o1 (state r) action) as [[reward nextState] o2].
  simpl. rewrite !length_app. simpl. lia.
Qed.

(** One round of the loop keeps the invariant, as long as the counter is
    below the larger of 1 and the step limit when the round starts. *)
Lemma rollout_body_recorded (theta : TParameter) (episodeLength : N)
    (r : Rollout Omega) :
  SizeT.in_range episodeLength ->
  recorded r -> step r < N.max 1 episodeLength ->
  recorded (rollout_body policy world theta r) /\
  step (rollout_body policy world theta r) = step r + 1.
Proof.
  intros Hrange (Hr & He & Hs) Hlt.
  assert (Hstep : step (rollout_body policy world theta r) = step r + 1).
  { rewrite rollout_body_step.
    apply (incr_no_wrap _ (N.max 1 episodeLength)); [|exact Hlt].
    unfold SizeT.in_range, SizeT.modulus in *.
    apply N.max_lub_lt; [reflexivity | exact Hrange]. }
  split; [|exact Hstep].
  destruct (rollout_body_sizes theta r) as (Hr' & He' & Hs').
  unfold recorded. rewrite Hstep, Hr', He', Hs', Hr, He, Hs. auto.
Qed.

Lemma rollout_loop_spec (theta : TParameter) (episodeLength : N) :
  SizeT.in_range episodeLength ->
  forall (fuel : nat) (r : Rollout Omega),
    recorded r -> step r < N.max 1 episodeLength ->
    (N.to_nat (N.max 1 episodeLength - step r) <= fuel)%nat ->
    exists r', rollout_loop policy world fuel theta episodeLength r = Some r' /\
               recorded r' /\ step r < step r' <= N.max 1 episodeLength.
Proof.
  intros Hrange fuel.
  induction fuel as [|fuel IH]; intros r Hrec Hlt Hfuel; [lia|].
  destruct (rollout_body_recorded theta episodeLength r Hrange Hrec Hlt)
    as [Hrec1 Hstep1].
  simpl. set (r1 := rollout_body policy world theta r) in *.
  destruct (step r1 <? episodeLength) eqn:Hmore.
  - apply N.ltb_lt in Hmore.
    destruct (isTerminal world (omega r1) (state r1)) as [terminal o].
    destruct terminal; simpl.
    + exists (with_omega r1 o).
      split; [reflexivity|]. split; [exact Hrec1|]. simpl. lia.
    + destruct (IH (with_omega r1 o)) as (r' & Hrun & Hrec' & Hlo & Hhi);
        simpl; auto; try lia.
      exists r'. simpl in Hlo.
      split; [exact Hrun|]. split; [exact Hrec'|]. lia.
  - apply N.ltb_ge in Hmore.
    exists r1. split; [reflexivity|]. split; [exact Hrec1|]. lia.
Qed.

(** The result of the loop does not depend on the fuel it was given. *)
Lemma rollout_loop_fuel (theta : TParameter) (episodeLength : N) :
  forall (fuel extra : nat) (r r' : Rollout Omega),
    rollout_loop policy world fuel theta episodeLength r = Some r' ->
    rollout_loop policy world (fuel + extra) theta episodeLength r = Some r'.
Proof.
  induction fuel as [|fuel IH]; intros extra r r' H; [discriminate|].
  simpl in *.
  destruct (step (rollout_body policy world theta r) <? episodeLength); [|exact H].
  destruct (isTerminal world _ _) as [terminal o].
  destruct terminal; simpl in *; [exact H | now apply IH].
Qed.

(** The rollout always ends, with one entry per executed step in each of
    the three vectors, at least one step, and no more steps than the larger
    of 1 and the step limit. *)
Lemma rollout_total (theta : TParameter) (episodeLength : N) (o : Omega) :
  SizeT.in_range episodeLength ->
  exists r, rollout policy world theta episodeLength o = Some r /\
            recorded r /\ 1 <= step r <= N.max 1 episodeLength.
Proof.
  intros Hrange. unfold rollout.
  destruct (rollout_loop_spec theta episodeLength Hrange
              (S (N.to_nat episodeLength))
              {| state := P_Zero; rewards := []; epsilons := []; states := [];
                 step := 0; omega := o |})
    as (r & Hrun & Hrec & Hlo & Hhi); simpl; try lia.
  - unfold recorded; simpl; auto.
  - exists r. split; [exact Hrun|]. split; [exact Hrec|]. simpl in Hlo. lia.
Qed.

(** Whatever the loop body and the terminal test preserve holds of the
    recorded trajectory. *)
Lemma rollout_invariant (I : Rollout Omega -> Prop) (theta : TParameter)
    (episodeLength : N) (o : Omega) (r : Rollout Omega) :
  (forall r0, I r0 -> I (rollout_body policy world theta r0)) ->
  (forall r0 o0, I r0 -> I (with_omega r0 o0)) ->
  I {| state := P_Zero; rewards := []; epsilons := []; states := [];
       step := 0; omega := o |} ->
  rollout policy world theta episodeLength o = Some r -> I r.
Proof.
  intros Hbody Homega. unfold rollout.
  generalize (S (N.to_nat episodeLength)) as fuel.
  generalize {| state := P_Zero; rewards := @nil double; epsilons := [];
                states := []; step := 0; omega := o |} as r0.
  intros r0 fuel; revert r0.
  induction fuel as [|fuel IH]; intros r0 H0 Hrun; [discriminate|].
  simpl in Hrun.
  destruct (step (rollout_body policy world theta r0) <? episodeLength).
  - destruct (isTerminal world _ _) as [terminal o1].
    destruct terminal; simpl in Hrun.
    + injection Hrun as <-. auto.
    + apply (IH _ (Homega _ o1 (Hbody _ H0)) Hrun).
  - injection Hrun as <-. auto.
Qed.

(** In a world that never reports a terminal state the loop stops only at
    the step limit. *)
Lemma rollout_never_terminal (theta : TParameter) (episodeLength : N)
    (o : Omega) (r : Rollout Omega) :
  (forall o0 s, fst (isTerminal world o0 s) = false) ->
  rollout policy world theta episodeLength o = Some r ->
  episodeLength <= step r.
Proof.
  intros Hnever. unfold rollout.
  generalize (S (N.to_nat episodeLength)) as fuel.
  generalize {| state := P_Zero; rewards := @nil double; epsilons := [];
                states := []; step := 0; omega := o |} as r0.
  intros r0 fuel; revert r0.
  induction fuel as [|fuel IH]; intros r0 Hrun; [discriminate|].
  simpl in Hrun.
  destruct (step (rollout_body policy world theta r0) <? episodeLength) eqn:E.
  - pose proof (Hnever (omega (rollout_body policy world theta r0))
                  (state (rollout_body policy world theta r0))) as Hn.
    destruct (isTerminal world _ _) as [terminal o1].
    simpl in Hn. subst terminal. simpl in Hrun.
    apply (IH _ Hrun).
  - injection Hrun as <-. now apply N.ltb_ge.
Qed.

End RolloutFacts.

(** ** The reward-to-go pass *)

Section RewardToGo.

Context {L : LinAlg}.

Lemma last_cons {A : Type} (l : list A) (a d : A) : last (a :: l) d = last l a.
Proof.
  revert a d; induction l as [|b l IH]; intros a d; [reflexivity|].
  change (last (a :: b :: l) d) with (last (b :: l) d).
  rewrite (IH b d), (IH b a). reflexivity.
Qed.

Lemma last_hd_rev {A : Type} (l : list A) (d : A) : last l d = hd d (rev l).
Proof.
  induction l as [|a l IH] using rev_ind; [reflexivity|].
  rewrite last_last, rev_app_distr. reflexivity.
Qed.

(** Processing one more element at the end of the traversal adds it to the
    running sum reached so far. *)
Lemma reward_to_go_from_snoc (l : list double) (x : double) :
  forall acc,
    reward_to_go_from acc (l ++ [x])
    = reward_to_go_from acc l
      ++ [d_plus (last (reward_to_go_from acc l) acc) x].
Proof.
  induction l as [|a l IH]; intros acc; [reflexivity|].
  cbn [app reward_to_go_from]. rewrite IH, last_cons. reflexivity.
Qed.

(** The pass, read from the front of the vector: every entry is the entry
    after it (zero after the last one) plus the reward of its own step. *)
Lemma reward_to_go_cons (r : double) (rs : list double) :
  reward_to_go (r :: rs)
  = d_plus (hd d_zero (reward_to_go rs)) r :: reward_to_go rs.
Proof.
  unfold reward_to_go. simpl rev at 2.
  rewrite reward_to_go_from_snoc, rev_app_distr. simpl.
  rewrite last_hd_rev. reflexivity.
Qed.

Lemma reward_to_go_length (rs : list double) :
  length (reward_to_go rs) = length rs.
Proof.
  induction rs as [|r rs IH]; [reflexivity|].
  rewrite reward_to_go_cons. simpl. now rewrite IH.
Qed.

(** Entry [i] is the reward of step [i] added to entry [i+1], or to zero
    when there is no entry [i+1]. *)
Lemma reward_to_go_nth (rs : list double) :
  forall (i : nat) (r : double),
    nth_error rs i = Some r ->
    nth_error (reward_to_go rs) i
    = Some (d_plus (match nth_error (reward_to_go rs) (S i) with
                    | Some a => a
                    | None => d_zero
                    end) r).
Proof.
  induction rs as [|r0 rs IH]; intros i r Hi; [destruct i; discriminate|].
  rewrite reward_to_go_cons.
  destruct i as [|i]; simpl in *.
  - injection Hi as ->. destruct (reward_to_go rs); reflexivity.
  - now apply IH.
Qed.

(** The first entry is the rewards added up from the last to the first. *)
Lemma reward_to_go_hd_fold (rs : list double) :
  hd d_zero (reward_to_go rs)
  = fold_right (fun x acc => d_plus acc x) d_zero rs.
Proof.
  induction rs as [|r rs IH]; [reflexivity|].
  rewrite reward_to_go_cons. simpl. now rewrite IH.
Qed.

(** So is every entry, over the rewards from its own step on. *)
Lemma reward_to_go_nth_fold (rs : list double) :
  forall i : nat,
    (i < length rs)%nat ->
    nth_error (reward_to_go rs) i
    = Some (fold_right (fun x acc => d_plus acc x) d_zero (skipn i rs)).
Proof.
  induction rs as [|r rs IH]; intros i Hi; [simpl in Hi; lia|].
  rewrite reward_to_go_cons.
  destruct i as [|i]; simpl.
  - now rewrite reward_to_go_hd_fold.
  - apply IH. simpl in Hi. lia.
Qed.

End RewardToGo.

(** ** The weighting pass *)

Section Weighting.

Context {L : LinAlg}.

Lemma skipn_nth_error {A : Type} (l : list A) :
  forall (k : nat) (x : A),
    nth_error l k = Some x -> skipn k l = x :: skipn (S k) l.
Proof.
  induction l as [|a l IH]; intros k x H; destruct k as [|k];
    try discriminate.
  - injection H as ->. reflexivity.
  - simpl in H. apply IH in H. exact H.
Qed.

Lemma nth_error_in_range {A : Type} (l : list A) (k : nat) :
  (k < length l)%nat -> exists x, nth_error l k = Some x.
Proof.
  intros H. destruct (nth_error l k) as [x|] eqn:E; [now exists x|].
  apply nth_error_None in E. lia.
Qed.

Lemma precision_weights_length (sigma : double) (ss : list TParameter) :
  length (precision_weights sigma ss) = length ss.
Proof.
  destruct ss as [|s ss]; simpl; [reflexivity | now rewrite length_map].
Qed.

(** The weight the loop computes for index [k] is entry [k] of the list of
    precision weights. *)
Lemma step_weight_nth (sigma : double) (ss : list TParameter) (k : nat) :
  (k < length ss)%nat ->
  step_weight sigma ss (N.of_nat k) = nth_error (precision_weights sigma ss) k.
Proof.
  intros Hk. unfold step_weight.
  destruct k as [|k].
  - destruct ss; [simpl in Hk; lia | reflexivity].
  - replace (N.of_nat (S k) =? 0) with false
      by (symmetry; apply N.eqb_neq; lia).
    rewrite Nnat.Nat2N.id.
    destruct ss as [|s0 ss]; [simpl in Hk; lia|].
    simpl. rewrite nth_error_map.
    destruct (nth_error ss k); reflexivity.
Qed.

(** The indexed loop over the three vectors is a left-to-right pass over
    the precision weights, the noise samples and the rewards-to-go. *)
Lemma weighting_fold (sigma : double) (rs : list double)
    (es ss : list TParameter) :
  length es = length rs -> length ss = length rs ->
  forall (m k : nat) (acc : TWeight * TParameter),
    (k + m = length rs)%nat ->
    fold_indices (weighting_body sigma rs es ss) (indices (N.of_nat k) m) acc
    = Some
        (fold_left (fun a wq => W_plus a (W_times (fst wq) (snd wq)))
           (combine (skipn k (precision_weights sigma ss)) (skipn k rs))
           (fst acc),
         fold_left
           (fun a weq =>
              P_plus a (P_times (W_apply (fst (fst weq)) (snd (fst weq)))
                          (snd weq)))
           (combine (combine (skipn k (precision_weights sigma ss))
                       (skipn k es)) (skipn k rs))
           (snd acc)).
Proof.
  intros Hes Hss m.
  induction m as [|m IH]; intros k [accW accP] Hk.
  - simpl.
    rewrite (skipn_all2 (precision_weights sigma ss))
      by (rewrite precision_weights_length; lia).
    reflexivity.
  - cbn [indices fold_indices].
    unfold weighting_body at 1.
    rewrite step_weight_nth by lia.
    rewrite Nnat.Nat2N.id.
    destruct (nth_error_in_range (precision_weights sigma ss) k) as [w Hw];
      [rewrite precision_weights_length; lia|].
    destruct (nth_error_in_range rs k) as [r Hr]; [lia|].
    destruct (nth_error_in_range es k) as [e He]; [lia|].
    rewrite Hw, Hr, He. cbn [bind].
    replace (N.of_nat k + 1) with (N.of_nat (S k)) by lia.
    rewrite IH by lia.
    rewrite (skipn_nth_error _ k w Hw), (skipn_nth_error _ k r Hr),
      (skipn_nth_error _ k e He).
    reflexivity.
Qed.

End Weighting.

(** ** One episode *)

Section EpisodeFacts.

Context {L : LinAlg} {Omega : Type}.
Variable policy : NoisePolicy Omega.
Variable world : IWorld Omega.

(** What [episode] returns for a recorded trajectory: the first reward-to-go
    and the two sums of the weighting pass, whatever its out-parameters
    held before. *)
Lemma aggregate_spec (r : Rollout Omega) (weightRewards : TWeight)
    (epsilonRewards : TParameter) (sigma : double) :
  recorded r -> 1 <= step r -> SizeT.in_range (step r) ->
  aggregate r weightRewards epsilonRewards sigma
  = Some (hd d_zero (reward_to_go (rewards r)),
          weight_sum (precision_weights sigma (states r))
            (reward_to_go (rewards r)),
          noise_weighted_sum (precision_weights sigma (states r))
            (epsilons r) (reward_to_go (rewards r))).
Proof.
  intros (Hr & He & Hs) Hone Hrange.
  unfold SizeT.size in Hr, He, Hs.
  unfold aggregate.
  set (agg := reward_to_go (rewards r)).
  assert (Hagg : length agg = length (rewards r))
    by apply reward_to_go_length.
  rewrite for_loop_fold.
  - unfold SizeT.size. rewrite N.sub_0_r, Nnat.Nat2N.id.
    rewrite (weighting_fold sigma agg (epsilons r) (states r)) with (k := O);
      try lia.
    cbn [bind fst snd skipn].
    destruct agg as [|a agg']; [simpl in Hagg; lia|].
    reflexivity.
  - unfold SizeT.size. rewrite Hagg, Hr. exact Hrange.
  - unfold SizeT.size. lia.
Qed.

(** [episode] always returns: it runs the rollout to its end and then
    aggregates the recorded trajectory. *)
Lemma episode_spec (theta : TParameter) (weightRewards : TWeight)
    (epsilonRewards : TParameter) (sigma : double) (episodeLength : N)
    (o : Omega) :
  SizeT.in_range episodeLength ->
  exists r,
    rollout policy world theta episodeLength o = Some r /\
    recorded r /\ 1 <= step r <= N.max 1 episodeLength /\
    episode policy world theta weightRewards epsilonRewards sigma
      episodeLength o
    = Some (hd d_zero (reward_to_go (rewards r)),
            weight_sum (precision_weights sigma (states r))
              (reward_to_go (rewards r)),
            noise_weighted_sum (precision_weights sigma (states r))
              (epsilons r) (reward_to_go (rewards r)),
            omega r).
Proof.
  intros Hrange.
  destruct (rollout_total policy world theta episodeLength o Hrange)
    as (r & Hrun & Hrec & Hlo & Hhi).
  exists r. split; [exact Hrun|]. split; [exact Hrec|]. split; [lia|].
  unfold episode. rewrite Hrun. cbn [bind].
  rewrite aggregate_spec; auto.
  unfold SizeT.in_range, SizeT.modulus in *. lia.
Qed.

End EpisodeFacts.

(** ** Batches and the improvement loop *)

Section BatchFacts.

Context {L : LinAlg} {Omega : Type}.
Variable policy : NoisePolicy Omega.
Variable world : IWorld Omega.
Variable uninitialized_W : TWeight.
Variable uninitialized_P : TParameter.

Lemma run_episodes_total (theta : TParameter) (episodeLength : N) :
  SizeT.in_range episodeLength ->
  forall (n : nat) (o : Omega),
    exists results o',
      run_episodes policy world uninitialized_W uninitialized_P n theta
        episodeLength o = Some (results, o') /\
      length results = n.
Proof.
  intros Hrange n.
  induction n as [|n IH]; intros o; simpl.
  - exists [], o. auto.
  - destruct (episode_spec policy world theta uninitialized_W uninitialized_P
                d_half episodeLength o Hrange) as (r & _ & _ & _ & Hep).
    rewrite Hep. cbn [bind].
    destruct (IH (omega r)) as (later & o2 & Hrun & Hlen).
    rewrite Hrun. cbn [bind].
    eexists; eexists; split; [reflexivity|]. simpl. now rewrite Hlen.
Qed.

(** The loop of [episodes] adds the results of the calls, in call order, to
    the three running sums. *)
Lemma episodes_fold (theta : TParameter) (episodeLength : N) :
  forall (n : nat) (i : N) (sumW : TWeight) (sumE : TParameter)
         (sumR : double) (o : Omega),
    fold_indices
      (episodes_body policy world uninitialized_W uninitialized_P theta
         episodeLength)
      (indices i n) (sumW, sumE, sumR, o)
    = '(results, o') <-
        run_episodes policy world uninitialized_W uninitialized_P n theta
          episodeLength o ;;
      Some (fold_left W_plus (map (fun x => snd (fst x)) results) sumW,
            fold_left P_plus (map (fun x => snd x) results) sumE,
            fold_left d_plus (map (fun x => fst (fst x)) results) sumR,
            o').
Proof.
  induction n as [|n IH]; intros i sumW sumE sumR o; [reflexivity|].
  cbn [indices fold_indices run_episodes].
  unfold episodes_body at 1.
  destruct (episode policy world theta uninitialized_W uninitialized_P d_half
              episodeLength o) as [[[[total w] e] o1]|]; [|reflexivity].
  cbn [bind]. rewrite IH.
  destruct (run_episodes policy world uninitialized_W uninitialized_P n theta
              episodeLength o1) as [[later o2]|]; reflexivity.
Qed.

Lemma episodes_average (theta update : TParameter)
    (updateEpisode episodeLength : N) (o : Omega) :
  SizeT.in_range updateEpisode ->
  episodes policy world uninitialized_W uninitialized_P theta update
    updateEpisode episodeLength o
  = average_episodes policy world uninitialized_W uninitialized_P theta
      updateEpisode episodeLength o.
Proof.
  intros Hn. unfold episodes, average_episodes.
  rewrite for_loop_fold by (assumption || lia).
  rewrite N.sub_0_r, episodes_fold.
  destruct (run_episodes policy world uninitialized_W uninitialized_P
              (N.to_nat updateEpisode) theta episodeLength o)
    as [[results o']|]; reflexivity.
Qed.

Lemma episodes_total (theta update : TParameter)
    (updateEpisode episodeLength : N) (o : Omega) :
  SizeT.in_range updateEpisode -> SizeT.in_range episodeLength ->
  exists mean_return update_vector o',
    episodes policy world uninitialized_W uninitialized_P theta update
      updateEpisode episodeLength o
    = Some (mean_return, update_vector, o').
Proof.
  intros Hn Hlen. rewrite episodes_average by exact Hn.
  unfold average_episodes.
  destruct (run_episodes_total theta episodeLength Hlen
              (N.to_nat updateEpisode) o) as (results & o' & Hrun & _).
  rewrite Hrun. cbn [bind]. eauto.
Qed.

(** The episodes of a batch run on the trajectories of the batch: each
    result is what [episode] makes of one trajectory. *)
Lemma run_episodes_rollouts (theta : TParameter) (episodeLength : N) :
  SizeT.in_range episodeLength ->
  forall (n : nat) (o : Omega),
    exists trajectories results o',
      batch_rollouts policy world n theta episodeLength o
      = Some trajectories /\
      run_episodes policy world uninitialized_W uninitialized_P n theta
        episodeLength o = Some (results, o') /\
      results
      = map (fun r =>
               (hd d_zero (reward_to_go (rewards r)),
                weight_sum (precision_weights d_half (states r))
                  (reward_to_go (rewards r)),
                noise_weighted_sum (precision_weights d_half (states r))
                  (epsilons r) (reward_to_go (rewards r))))
          trajectories.
Proof.
  intros Hrange n.
  induction n as [|n IH]; intros o; simpl.
  - exists [], [], o. auto.
  - destruct (episode_spec policy world theta uninitialized_W uninitialized_P
                d_half episodeLength o Hrange) as (r & Hrun & _ & _ & Hep).
    rewrite Hrun, Hep. cbn [bind].
    destruct (IH (omega r)) as (rs & later & o2 & Hrs & Hlater & Heq).
    rewrite Hrs, Hlater. cbn [bind].
    exists (r :: rs). eexists. eexists.
    split; [reflexivity|]. split; [reflexivity|].
    simpl. now rewrite Heq.
Qed.

(** The loop of [power] is the repeated improvement step. *)
Lemma power_fold (updateEpisode episodeLength : N) :
  forall (n : nat) (i : N) (theta : TParameter) (o : Omega),
    fold_indices
      (power_body policy world uninitialized_W uninitialized_P updateEpisode
         episodeLength)
      (indices i n) (theta, o)
    = improve policy world uninitialized_W uninitialized_P n theta
        updateEpisode episodeLength o.
Proof.
  induction n as [|n IH]; intros i theta o; [reflexivity|].
  cbn [indices fold_indices improve].
  unfold power_body at 1.
  destruct (episodes policy world uninitialized_W uninitialized_P theta
              uninitialized_P updateEpisode episodeLength o)
    as [[[mean update] o1]|]; [|reflexivity].
  cbn [bind]. apply IH.
Qed.

Lemma improve_total (updateEpisode episodeLength : N) :
  SizeT.in_range updateEpisode -> SizeT.in_range episodeLength ->
  forall (n : nat) (theta : TParameter) (o : Omega),
    exists theta' o',
      improve policy world uninitialized_W uninitialized_P n theta
        updateEpisode episodeLength o = Some (theta', o').
Proof.
  intros Hn Hlen n.
  induction n as [|n IH]; intros theta o; simpl; [eauto|].
  destruct (episodes_total theta uninitialized_P updateEpisode episodeLength o
              Hn Hlen) as (mean & update & o1 & Hep).
  rewrite Hep. cbn [bind]. apply IH.
Qed.

End BatchFacts.

(** ** Binary64 arithmetic *)

Section Binary64Facts.

Import Binary64.
Local Open Scope float_scope.

Lemma SFcompare_finite_refl (s : bool) (m : positive) (e : Z) :
  SFcompare (S754_finite s m e) (S754_finite s m e) = Some Eq.
Proof.
  simpl. rewrite Z.compare_refl.
  assert (H : Pos.compare_cont Eq m m = Eq) by apply Pos.compare_cont_refl.
  rewrite H. destruct s; reflexivity.
Qed.

Lemma is_finite_spec (x : float) : is_finite x = sf_finite (Prim2SF x).
Proof.
  unfold is_finite, is_nan, is_infinity.
  rewrite !eqb_spec, abs_spec.
  change (Prim2SF infinity) with (S754_infinity false).
  destruct (Prim2SF x) as [s|s| |s m e];
    try (destruct s; reflexivity); try reflexivity.
  unfold SFeqb. rewrite SFcompare_finite_refl. destruct s; reflexivity.
Qed.

Lemma is_zero_spec (x : float) : is_zero x = sf_zero (Prim2SF x).
Proof.
  unfold is_zero. rewrite eqb_spec.
  change (Prim2SF zero) with (S754_zero false).
  destruct (Prim2SF x) as [s|s| |s m e];
    try (destruct s; reflexivity); reflexivity.
Qed.

Lemma zero_is_finite (z : float) : is_zero z = true -> is_finite z = true.
Proof.
  rewrite is_zero_spec, is_finite_spec.
  destruct (Prim2SF z); simpl; congruence.
Qed.

(** Infinities and NaN absorb: a product or a sum with such an operand is
    again an infinity or NaN. *)
Lemma mul_nonfinite_l (x y : float) :
  is_finite x = false -> is_finite (x * y) = false.
Proof.
  rewrite !is_finite_spec, mul_spec. unfold SF64mul.
  destruct (Prim2SF x), (Prim2SF y); simpl; congruence.
Qed.

Lemma mul_nonfinite_r (x y : float) :
  is_finite y = false -> is_finite (x * y) = false.
Proof.
  rewrite !is_finite_spec, mul_spec. unfold SF64mul.
  destruct (Prim2SF x), (Prim2SF y); simpl; congruence.
Qed.

Lemma add_nonfinite_l (x y : float) :
  is_finite x = false -> is_finite (x + y) = false.
Proof.
  rewrite !is_finite_spec, add_spec. unfold SF64add.
  destruct (Prim2SF x) as [[|]|[|]| |], (Prim2SF y) as [[|]|[|]| |];
    simpl; congruence.
Qed.

Lemma add_nonfinite_r (x y : float) :
  is_finite y = false -> is_finite (x + y) = false.
Proof.
  rewrite !is_finite_spec, add_spec. unfold SF64add.
  destruct (Prim2SF x) as [[|]|[|]| |], (Prim2SF y) as [[|]|[|]| |];
    simpl; congruence.
Qed.

(** A finite value times zero is zero, of either sign. *)
Lemma mul_zero_r (x z : float) :
  is_finite x = true -> is_zero z = true -> is_zero (x * z) = true.
Proof.
  rewrite is_finite_spec, !is_zero_spec, mul_spec. unfold SF64mul.
  destruct (Prim2SF x), (Prim2SF z); simpl; congruence.
Qed.

Lemma mul_zero_l (z x : float) :
  is_zero z = true -> is_finite x = true -> is_zero (z * x) = true.
Proof.
  rewrite is_finite_spec, !is_zero_spec, mul_spec. unfold SF64mul.
  destruct (Prim2SF x), (Prim2SF z); simpl; congruence.
Qed.

(** Adding a zero of either sign to [+0] gives [+0]. *)
Lemma add_zero_absorb (z : float) : is_zero z = true -> 0 + z = 0.
Proof.
  rewrite is_zero_spec. intros H. apply Prim2SF_inj. rewrite add_spec.
  change (Prim2SF 0) with (S754_zero false).
  destruct (Prim2SF z) as [[|]| | |]; try discriminate; reflexivity.
Qed.

(** Adding to [+0] returns the other operand, except that [-0] becomes
    [+0]. *)
Lemma add_zero_l (x : float) : x <> (-0) -> 0 + x = x.
Proof.
  intros Hx. apply Prim2SF_inj. rewrite add_spec.
  change (Prim2SF 0) with (S754_zero false).
  destruct (Prim2SF x) as [[|]|s| |s m e] eqn:E; try reflexivity.
  exfalso. apply Hx.
  rewrite <- (SF2Prim_Prim2SF x), E. reflexivity.
Qed.

(** The reciprocal of zero is an infinity. *)
Lemma reciprocal_of_zero (z : float) :
  is_zero z = true -> is_finite (1 / z) = false.
Proof.
  rewrite is_zero_spec, is_finite_spec, div_spec.
  change (Prim2SF 1) with (S754_finite false 4503599627370496 (-52)).
  destruct (Prim2SF z); try discriminate; reflexivity.
Qed.

(** With sigma [0], the weight of a finite state is not finite: the
    quadratic form is zero, its reciprocal an infinity. *)
Lemma scaled_outer_sigma_zero (s : float) :
  is_finite s = true -> is_finite (scaled_outer (L := dim1) 0 s) = false.
Proof.
  intros Hs. unfold scaled_outer. simpl.
  apply mul_nonfinite_r, reciprocal_of_zero.
  apply mul_zero_l; [|exact Hs].
  apply mul_zero_r; [exact Hs | reflexivity].
Qed.

(** A sum that has reached an infinity or NaN stays there. *)
Lemma weight_sum_stays_nonfinite (l : list (float * float)) :
  forall acc : float,
    is_finite acc = false ->
    is_finite
      (fold_left (fun a wq => a + fst wq * snd wq) l acc) = false.
Proof.
  induction l as [|[w q] l IH]; intros acc Hacc; simpl; [exact Hacc|].
  apply IH. now apply add_nonfinite_l.
Qed.

(** One weight that is not finite makes the weight sum not finite. *)
Lemma weight_sum_nonfinite (ws agg : list float) :
  forall (k : nat) (w q : float),
    nth_error ws k = Some w -> nth_error agg k = Some q ->
    is_finite w = false ->
    is_finite (weight_sum (L := dim1) ws agg) = false.
Proof.
  unfold weight_sum. simpl. generalize 0 as acc.
  revert agg.
  induction ws as [|w0 ws IH]; intros agg acc k w q Hw Hq Hnf;
    [destruct k; discriminate|].
  destruct agg as [|q0 agg]; [destruct k; discriminate|].
  destruct k as [|k]; simpl in *.
  - injection Hw as ->. injection Hq as ->.
    apply weight_sum_stays_nonfinite.
    now apply add_nonfinite_r, mul_nonfinite_l.
  - now apply (IH agg _ k w q).
Qed.

(** Zero noise gives a zero noise-weighted sum, as long as every weight
    and every reward-to-go is finite. *)
Lemma noise_weighted_sum_zero (ws es agg : list float) :
  Forall (fun w => is_finite w = true) ws ->
  Forall (fun e => e = 0) es ->
  Forall (fun q => is_finite q = true) agg ->
  noise_weighted_sum (L := dim1) ws es agg = 0.
Proof.
  unfold noise_weighted_sum. simpl.
  revert es agg.
  induction ws as [|w ws IH]; intros es agg Hws Hes Hagg; [reflexivity|].
  destruct es as [|e es]; [reflexivity|].
  destruct agg as [|q agg]; [reflexivity|].
  apply Forall_cons_iff in Hws; destruct Hws as [Hw Hws].
  apply Forall_cons_iff in Hes; destruct Hes as [-> Hes].
  apply Forall_cons_iff in Hagg; destruct Hagg as [Hq Hagg].
  simpl. rewrite add_zero_absorb.
  - now apply IH.
  - apply mul_zero_l; [|exact Hq]. now apply mul_zero_r.
Qed.

End Binary64Facts.

(** ** Binary64 rounding

    What [SpecFloat] says about the mantissa and the exponent of a rounded
    result: enough to follow signs and magnitudes through the sums,
    products and quotients of the header. *)

Section Binary64Rounding.

Local Open Scope Z_scope.

(** The exponent of the format for a value of magnitude [2^z]. *)
Lemma fexp64_eq (z : Z) : fexp prec emax z = Z.max (z - 53) (-1074).
Proof. reflexivity. Qed.

(** [Zdigits2 m] is the number of binary digits of [m]. *)
Lemma digits2_pos_bounds (p : positive) :
  2 ^ (Zpos (digits2_pos p) - 1) <= Zpos p < 2 ^ Zpos (digits2_pos p).
Proof.
  induction p as [p IH|p IH|]; simpl digits2_pos;
    rewrite ?Pos2Z.inj_succ.
  - replace (Z.succ (Zpos (digits2_pos p)) - 1)
      with (Z.succ (Zpos (digits2_pos p) - 1)) by lia.
    rewrite !Z.pow_succ_r by lia. lia.
  - replace (Z.succ (Zpos (digits2_pos p)) - 1)
      with (Z.succ (Zpos (digits2_pos p) - 1)) by lia.
    rewrite !Z.pow_succ_r by lia. lia.
  - simpl. lia.
Qed.

Lemma Zdigits2_bounds (m : Z) :
  0 < m -> 2 ^ (Zdigits2 m - 1) <= m < 2 ^ Zdigits2 m.
Proof.
  destruct m as [|p|p]; try lia. intros _. apply digits2_pos_bounds.
Qed.

Lemma Zdigits2_pos (m : Z) : 0 < m -> 0 < Zdigits2 m.
Proof. destruct m; simpl; lia. Qed.

Lemma Zdigits2_nonneg (m : Z) : 0 <= m -> 0 <= Zdigits2 m.
Proof. destruct m; simpl; lia. Qed.

Lemma Zdigits2_unique (m d : Z) :
  0 < m -> 2 ^ (d - 1) <= m < 2 ^ d -> Zdigits2 m = d.
Proof.
  intros Hm [Hlo Hhi].
  pose proof (Zdigits2_bounds m Hm) as [Blo Bhi].
  pose proof (Zdigits2_pos m Hm) as Hd.
  assert (0 < d).
  { destruct (Z_lt_le_dec 0 d) as [|Hneg]; [assumption|].
    assert (2 ^ d <= 2 ^ 0) by (apply Z.pow_le_mono_r; lia).
    simpl in *. lia. }
  destruct (Z.lt_total (Zdigits2 m) d) as [Hlt|[Heq|Hgt]]; [|exact Heq|].
  - assert (2 ^ Zdigits2 m <= 2 ^ (d - 1)) by (apply Z.pow_le_mono_r; lia).
    lia.
  - assert (2 ^ d <= 2 ^ (Zdigits2 m - 1)) by (apply Z.pow_le_mono_r; lia).
    lia.
Qed.

Lemma Zdigits2_mono (a b : Z) : 0 < a -> a <= b -> Zdigits2 a <= Zdigits2 b.
Proof.
  intros Ha Hab.
  pose proof (Zdigits2_bounds a Ha) as [Alo Ahi].
  pose proof (Zdigits2_bounds b ltac:(lia)) as [Blo Bhi].
  destruct (Z_lt_le_dec (Zdigits2 b) (Zdigits2 a)) as [Hlt|]; [|assumption].
  assert (2 ^ Zdigits2 b <= 2 ^ (Zdigits2 a - 1))
    by (apply Z.pow_le_mono_r; lia).
  lia.
Qed.

Lemma Zdigits2_mul_pow (m k : Z) :
  0 < m -> 0 <= k -> Zdigits2 (m * 2 ^ k) = Zdigits2 m + k.
Proof.
  intros Hm Hk.
  pose proof (Zdigits2_bounds m Hm) as [Blo Bhi].
  pose proof (Zdigits2_pos m Hm) as Hd.
  assert (0 < 2 ^ k) by (apply Z.pow_pos_nonneg; lia).
  apply Zdigits2_unique; [nia|].
  replace (Zdigits2 m + k - 1) with (Zdigits2 m - 1 + k) by lia.
  rewrite !Z.pow_add_r by lia. nia.
Qed.

Lemma Zdigits2_div_pow (m k : Z) :
  0 < m -> 0 <= k < Zdigits2 m ->
  0 < m / 2 ^ k /\ Zdigits2 (m / 2 ^ k) = Zdigits2 m - k.
Proof.
  intros Hm Hk.
  pose proof (Zdigits2_bounds m Hm) as [Blo Bhi].
  assert (Hp : 0 < 2 ^ k) by (apply Z.pow_pos_nonneg; lia).
  assert (Hlo : 2 ^ (Zdigits2 m - k - 1) <= m / 2 ^ k).
  { apply Z.div_le_lower_bound; [exact Hp|].
    rewrite <- Z.pow_add_r by lia.
    replace (k + (Zdigits2 m - k - 1)) with (Zdigits2 m - 1) by lia.
    exact Blo. }
  assert (Hhi : m / 2 ^ k < 2 ^ (Zdigits2 m - k)).
  { apply Z.div_lt_upper_bound; [exact Hp|].
    rewrite <- Z.pow_add_r by lia.
    replace (k + (Zdigits2 m - k)) with (Zdigits2 m) by lia.
    exact Bhi. }
  assert (0 < 2 ^ (Zdigits2 m - k - 1)) by (apply Z.pow_pos_nonneg; lia).
  split; [lia|].
  apply Zdigits2_unique; [lia|]. split; assumption.
Qed.

Lemma Zdigits2_div_pow_zero (m k : Z) :
  0 <= m -> Zdigits2 m <= k -> m / 2 ^ k = 0.
Proof.
  intros Hm Hk.
  destruct (Z.eq_dec m 0) as [->|Hne]; [apply Z.div_0_l; 
    apply Z.pow_nonzero; [lia|]; simpl in Hk; lia|].
  pose proof (Zdigits2_bounds m ltac:(lia)) as [Blo Bhi].
  apply Z.div_small. split; [lia|].
  assert (2 ^ Zdigits2 m <= 2 ^ k) by (apply Z.pow_le_mono_r; lia).
  lia.
Qed.

Lemma Zdigits2_succ (m : Z) :
  0 <= m -> Zdigits2 m <= Zdigits2 (m + 1) <= Zdigits2 m + 1.
Proof.
  intros Hm.
  destruct (Z.eq_dec m 0) as [->|Hne]; [simpl; lia|].
  split; [apply Zdigits2_mono; lia|].
  pose proof (Zdigits2_bounds m ltac:(lia)) as [Blo Bhi].
  pose proof (Zdigits2_bounds (m + 1) ltac:(lia)) as [Clo Chi].
  destruct (Z_lt_le_dec (Zdigits2 m + 1) (Zdigits2 (m + 1))) as [Hlt|];
    [|assumption].
  pose proof (Zdigits2_pos m ltac:(lia)) as Hd.
  assert (H : 2 ^ Z.succ (Zdigits2 m) <= 2 ^ (Zdigits2 (m + 1) - 1))
    by (apply Z.pow_le_mono_r; lia).
  rewrite Z.pow_succ_r in H by lia. lia.
Qed.

(** Shifting right by [n] places divides the mantissa by [2^n]. *)
Lemma shr_1_m (mrs : shr_record) :
  0 <= shr_m mrs -> shr_m (shr_1 mrs) = shr_m mrs / 2.
Proof.
  destruct mrs as [m r s]. simpl. intros Hm.
  destruct m as [|p|p]; try lia; [reflexivity|].
  destruct p as [p|p|]; simpl.
  - rewrite <- (Z.div2_div (Zpos p~1)). reflexivity.
  - rewrite <- (Z.div2_div (Zpos p~0)). reflexivity.
  - reflexivity.
Qed.

Lemma iter_shr_m (k : positive) :
  forall mrs : shr_record,
    0 <= shr_m mrs ->
    shr_m (iter_pos shr_1 k mrs) = shr_m mrs / 2 ^ Zpos k.
Proof.
  induction k as [k IH|k IH|]; intros mrs Hm; simpl iter_pos.
  - assert (H1 : 0 <= shr_m (shr_1 mrs))
      by (rewrite shr_1_m by exact Hm; apply Z.div_pos; lia).
    assert (H2 : 0 <= shr_m (iter_pos shr_1 k (shr_1 mrs)))
      by (rewrite IH by exact H1; apply Z.div_pos;
          [lia | apply Z.pow_pos_nonneg; lia]).
    rewrite IH, IH, shr_1_m by assumption.
    rewrite !Z.div_div by (try apply Z.pow_pos_nonneg; lia).
    f_equal.
    assert (E : Zpos k~1 = 1 + Zpos k + Zpos k) by lia.
    rewrite E, !Z.pow_add_r by lia. change (2 ^ 1) with 2. lia.
  - assert (H2 : 0 <= shr_m (iter_pos shr_1 k mrs))
      by (rewrite IH by exact Hm; apply Z.div_pos;
          [lia | apply Z.pow_pos_nonneg; lia]).
    rewrite IH, IH by assumption.
    rewrite !Z.div_div by (try apply Z.pow_pos_nonneg; lia).
    f_equal.
    assert (E : Zpos k~0 = Zpos k + Zpos k) by lia.
    rewrite E, !Z.pow_add_r by lia. lia.
  - rewrite shr_1_m by exact Hm. reflexivity.
Qed.

Lemma shr_spec (mrs : shr_record) (e n : Z) :
  0 <= shr_m mrs ->
  shr_m (fst (shr mrs e n)) = shr_m mrs / 2 ^ Z.max 0 n /\
  snd (shr mrs e n) = e + Z.max 0 n.
Proof.
  intros Hm. destruct n as [|p|p]; simpl.
  - rewrite Z.div_1_r. split; [reflexivity | lia].
  - rewrite iter_shr_m by exact Hm. split; reflexivity.
  - rewrite Z.div_1_r. split; [reflexivity | lia].
Qed.

Lemma shr_record_of_loc_m (m : Z) (l : location) :
  shr_m (shr_record_of_loc m l) = m.
Proof. destruct l as [|[| |]]; reflexivity. Qed.

(** Rounding to nearest keeps the truncated mantissa or adds one. *)
Lemma round_nearest_even_cases (m : Z) (l : location) :
  round_nearest_even m l = m \/ round_nearest_even m l = m + 1.
Proof.
  destruct l as [|[| |]]; simpl; auto. destruct (Z.even m); auto.
Qed.

(** The shape of a rounded result: a mantissa [m3] and an exponent [e2]
    between the exponent of the format for the magnitude of the input and
    that for twice the magnitude; the mantissa is positive and canonical
    unless the input is below the smallest subnormal. *)
Lemma bra_cases (sx : bool) (mx ex : Z) (lx : location) :
  0 < mx ->
  exists m3 e2,
    binary_round_aux prec emax sx mx ex lx
    = match m3 with
      | Z0 => S754_zero sx
      | Zpos m =>
          if e2 <=? emax - prec then S754_finite sx m e2 else S754_infinity sx
      | Zneg _ => S754_nan
      end /\
    0 <= m3 /\ ex <= e2 /\
    fexp prec emax (Zdigits2 mx + ex) <= e2 /\
    e2 <= Z.max ex (fexp prec emax (Zdigits2 mx + ex + 1)) /\
    (-1074 < Zdigits2 mx + ex -> 0 < m3) /\
    (-1074 < Zdigits2 mx + ex -> ex <= fexp prec emax (Zdigits2 mx + ex) ->
     fexp prec emax (Zdigits2 m3 + e2) = e2).
Proof.
  intros Hmx.
  pose proof (Zdigits2_pos mx Hmx) as Hd.
  unfold binary_round_aux, shr_fexp.
  set (n1 := fexp prec emax (Zdigits2 mx + ex) - ex).
  pose proof (shr_spec (shr_record_of_loc mx lx) ex n1) as S1.
  rewrite shr_record_of_loc_m in S1. specialize (S1 ltac:(lia)).
  destruct (shr (shr_record_of_loc mx lx) ex n1) as [mrs1 e1].
  simpl fst in S1; simpl snd in S1. destruct S1 as [Hm1 He1].
  set (m2 := round_nearest_even (shr_m mrs1) (loc_of_shr_record mrs1)).
  assert (Hm1pos : 0 <= shr_m mrs1)
    by (rewrite Hm1; apply Z.div_pos; [lia | apply Z.pow_pos_nonneg; lia]).
  assert (Hm2 : m2 = shr_m mrs1 \/ m2 = shr_m mrs1 + 1)
    by apply round_nearest_even_cases.
  assert (Hm2pos : 0 <= m2) by lia.
  set (n2 := fexp prec emax (Zdigits2 m2 + e1) - e1).
  pose proof (shr_spec (shr_record_of_loc m2 loc_Exact) e1 n2) as S2.
  rewrite shr_record_of_loc_m in S2. specialize (S2 Hm2pos).
  destruct (shr (shr_record_of_loc m2 loc_Exact) e1 n2) as [mrs2 e2].
  simpl fst in S2; simpl snd in S2. destruct S2 as [Hm3 He2].
  exists (shr_m mrs2), e2.
  split; [reflexivity|].
  assert (Hm3pos : 0 <= shr_m mrs2)
    by (rewrite Hm3; apply Z.div_pos; [lia | apply Z.pow_pos_nonneg; lia]).
  pose proof (Zdigits2_succ (shr_m mrs1) Hm1pos) as Hsucc.
  assert (Hdm2 : Zdigits2 (shr_m mrs1) <= Zdigits2 m2 <= Zdigits2 (shr_m mrs1) + 1)
    by (destruct Hm2 as [->| ->]; lia).
  unfold n1, n2 in *. rewrite !fexp64_eq in *.
  split; [exact Hm3pos|]. split; [lia|]. split; [lia|].
  split.
  { (* upper bound on the exponent *)
    destruct (Z_lt_le_dec (Z.max 0 (Z.max (Zdigits2 mx + ex - 53) (-1074) - ex))
                (Zdigits2 mx)) as [Hk|Hk].
    - destruct (Zdigits2_div_pow mx _ Hmx (conj (Z.le_max_l _ _) Hk))
        as [_ Hdiv].
      rewrite <- Hm1 in Hdiv. lia.
    - pose proof (Zdigits2_div_pow_zero mx _ ltac:(lia) Hk) as Hz.
      rewrite <- Hm1 in Hz. rewrite Hz in Hdm2. simpl in Hdm2. lia. }
  assert (Hmain : -1074 < Zdigits2 mx + ex ->
                  0 < shr_m mrs2 /\
                  Zdigits2 (shr_m mrs2) + e2 = Zdigits2 m2 + e1 /\
                  Zdigits2 mx + ex <= Zdigits2 m2 + e1 /\
                  (ex <= Z.max (Zdigits2 mx + ex - 53) (-1074) ->
                   e1 = Z.max (Zdigits2 mx + ex - 53) (-1074))).
  { intros HD.
    assert (Hk : Z.max 0 (Z.max (Zdigits2 mx + ex - 53) (-1074) - ex)
                 < Zdigits2 mx) by lia.
    destruct (Zdigits2_div_pow mx _ Hmx (conj (Z.le_max_l _ _) Hk))
      as [Hpos1 Hdiv].
    rewrite <- Hm1 in Hpos1, Hdiv.
    assert (Hm2gt : 0 < m2) by lia.
    pose proof (Zdigits2_pos m2 Hm2gt) as Hd2.
    assert (Hk2 : Z.max 0 (Z.max (Zdigits2 m2 + e1 - 53) (-1074) - e1)
                  < Zdigits2 m2) by lia.
    destruct (Zdigits2_div_pow m2 _ Hm2gt (conj (Z.le_max_l _ _) Hk2))
      as [Hpos3 Hdiv3].
    rewrite <- Hm3 in Hpos3, Hdiv3.
    split; [exact Hpos3|]. split; [lia|]. split; [lia|]. lia. }
  split.
  - intros HD. apply (Hmain HD).
  - intros HD Hex. destruct (Hmain HD) as (_ & Hsum & Hge & He1eq).
    rewrite Hsum. specialize (He1eq Hex). lia.
Qed.

(** Only the sign: a rounded value is never NaN. *)
Lemma bra_sign (sx : bool) (mx ex : Z) (lx : location) :
  0 <= mx ->
  exists m3 e2,
    binary_round_aux prec emax sx mx ex lx
    = match m3 with
      | Z0 => S754_zero sx
      | Zpos m =>
          if e2 <=? emax - prec then S754_finite sx m e2 else S754_infinity sx
      | Zneg _ => S754_nan
      end /\
    0 <= m3.
Proof.
  intros Hmx.
  unfold binary_round_aux, shr_fexp.
  set (n1 := fexp prec emax (Zdigits2 mx + ex) - ex).
  pose proof (shr_spec (shr_record_of_loc mx lx) ex n1) as S1.
  rewrite shr_record_of_loc_m in S1. specialize (S1 Hmx).
  destruct (shr (shr_record_of_loc mx lx) ex n1) as [mrs1 e1].
  simpl fst in S1; simpl snd in S1. destruct S1 as [Hm1 He1].
  set (m2 := round_nearest_even (shr_m mrs1) (loc_of_shr_record mrs1)).
  assert (Hm1pos : 0 <= shr_m mrs1)
    by (rewrite Hm1; apply Z.div_pos; [lia | apply Z.pow_pos_nonneg; lia]).
  assert (Hm2 : m2 = shr_m mrs1 \/ m2 = shr_m mrs1 + 1)
    by apply round_nearest_even_cases.
  assert (Hm2pos : 0 <= m2) by lia.
  set (n2 := fexp prec emax (Zdigits2 m2 + e1) - e1).
  pose proof (shr_spec (shr_record_of_loc m2 loc_Exact) e1 n2) as S2.
  rewrite shr_record_of_loc_m in S2. specialize (S2 Hm2pos).
  destruct (shr (shr_record_of_loc m2 loc_Exact) e1 n2) as [mrs2 e2].
  simpl fst in S2; simpl snd in S2. destruct S2 as [Hm3 He2].
  exists (shr_m mrs2), e2.
  split; [reflexivity|].
  rewrite Hm3; apply Z.div_pos; [lia | apply Z.pow_pos_nonneg; lia].
Qed.



End Binary64Rounding.

Section Binary64Alignment.

Local Open Scope Z_scope.

(** Aligning a mantissa to a lower exponent multiplies it by a power of
    two. *)
Lemma iter_xO (d m : positive) :
  Zpos (Pos.iter xO m d) = Zpos m * 2 ^ Zpos d.
Proof.
  induction d as [|d IH] using Pos.peano_ind.
  - simpl. lia.
  - rewrite Pos.iter_succ, Pos2Z.inj_succ, Z.pow_succ_r by lia.
    rewrite Pos2Z.inj_xO, IH. lia.
Qed.

Lemma shl_align_spec (mx : positive) (ex ex' : Z) :
  snd (shl_align mx ex ex') = Z.min ex ex' /\
  Zpos (fst (shl_align mx ex ex'))
  = Zpos mx * 2 ^ (ex - snd (shl_align mx ex ex')).
Proof.
  unfold shl_align.
  destruct (ex' - ex) as [|d|d] eqn:E; simpl fst; simpl snd.
  - split; [lia|]. rewrite Z.sub_diag. simpl. lia.
  - split; [lia|]. rewrite Z.sub_diag. simpl. lia.
  - split; [lia|]. rewrite iter_xO. f_equal. f_equal. lia.
Qed.

(** The shape of [binary_round]. *)
Lemma binary_round_cases (sx : bool) (mx : positive) (ex : Z) :
  exists m3 e2,
    binary_round prec emax sx mx ex
    = match m3 with
      | Z0 => S754_zero sx
      | Zpos m =>
          if e2 <=? emax - prec then S754_finite sx m e2 else S754_infinity sx
      | Zneg _ => S754_nan
      end /\
    0 <= m3 /\
    fexp prec emax (Zdigits2 (Zpos mx) + ex) <= e2 /\
    e2 <= fexp prec emax (Zdigits2 (Zpos mx) + ex + 1) /\
    (-1074 < Zdigits2 (Zpos mx) + ex ->
     0 < m3 /\ fexp prec emax (Zdigits2 m3 + e2) = e2).
Proof.
  unfold binary_round.
  change (Zpos (digits2_pos mx)) with (Zdigits2 (Zpos mx)).
  set (D := Zdigits2 (Zpos mx) + ex).
  destruct (shl_align_spec mx ex (fexp prec emax D)) as [He Hm].
  destruct (shl_align mx ex (fexp prec emax D)) as [mz ez].
  simpl fst in *; simpl snd in *.
  assert (Hle : 0 <= ex - ez) by lia.
  assert (HD : Zdigits2 (Zpos mz) + ez = D).
  { rewrite Hm, Zdigits2_mul_pow by lia. unfold D. lia. }
  destruct (bra_cases sx (Zpos mz) ez loc_Exact ltac:(lia))
    as (m3 & e2 & Heq & H0 & H1 & H2 & H3 & H4 & H5).
  rewrite HD in *.
  exists m3, e2. split; [exact Heq|].
  split; [exact H0|]. split; [exact H2|].
  split.
  - rewrite fexp64_eq in *. lia.
  - intros Hgt. split; [now apply H4|]. apply H5; [exact Hgt|lia].
Qed.

(** What validity says of a finite value: its mantissa is canonical, of at
    most 53 digits, and of exactly 53 above the subnormal exponent. *)
Lemma valid_finite (s : bool) (m : positive) (e : Z) :
  valid_binary (S754_finite s m e) = true ->
  fexp prec emax (Zdigits2 (Zpos m) + e) = e /\ e <= emax - prec.
Proof.
  unfold SpecFloat.valid_binary, bounded, canonical_mantissa.
  intros H. apply andb_prop in H. destruct H as [H1 H2].
  apply Z.eqb_eq in H1. apply Z.leb_le in H2. auto.
Qed.

Lemma valid_finite_bounds (s : bool) (m : positive) (e : Z) :
  valid_binary (S754_finite s m e) = true ->
  -1074 <= e <= 971 /\ 1 <= Zdigits2 (Zpos m) <= 53 /\
  (-1074 < e -> Zdigits2 (Zpos m) = 53).
Proof.
  intros H. destruct (valid_finite s m e H) as [Hc He].
  rewrite fexp64_eq in Hc.
  pose proof (Zdigits2_pos (Zpos m) ltac:(lia)).
  change (emax - prec) with 971 in He. lia.
Qed.

End Binary64Alignment.

Section Binary64Operations.

Import Binary64.
Local Open Scope Z_scope.
Local Open Scope float_scope.




(** Addition is commutative. *)
Lemma SFadd_comm (x y : spec_float) : SF64add x y = SF64add y x.
Proof.
  destruct x as [[|]|[|]| |sx mx ex], y as [[|]|[|]| |sy my ey];
    try reflexivity.
  unfold SF64add, SFadd. rewrite (Z.min_comm ey ex). f_equal. apply Z.add_comm.
Qed.

Lemma add_comm (x y : float) : x + y = y + x.
Proof. apply Prim2SF_inj. rewrite !add_spec. apply SFadd_comm. Qed.

(** The sum of two aligned mantissas of the same sign. *)
Lemma SFadd_same_sign (s : bool) (mx my : positive) (ex ey : Z) :
  exists p : positive,
    SF64add (S754_finite s mx ex) (S754_finite s my ey)
    = binary_round prec emax s p (Z.min ex ey) /\
    (Zpos mx * 2 ^ (ex - Z.min ex ey) <= Zpos p)%Z.
Proof.
  unfold SF64add, SFadd.
  destruct (shl_align_spec mx ex (Z.min ex ey)) as [Hex Hmx].
  destruct (shl_align_spec my ey (Z.min ex ey)) as [Hey Hmy].
  replace (snd (shl_align mx ex (Z.min ex ey))) with (Z.min ex ey) in Hmx
    by lia.
  rewrite <- Hmx.
  exists (fst (shl_align mx ex (Z.min ex ey))
          + fst (shl_align my ey (Z.min ex ey)))%positive.
  split; [|lia].
  destruct s; reflexivity.
Qed.



(** Adding a value that is not negative to a large one leaves it large. *)
Lemma SFadd_heavy (c : Z) (x y : spec_float) :
  (-1074 < c)%Z ->
  valid_binary x = true -> valid_binary y = true ->
  sf_heavy c x = true -> sf_nonneg y = true ->
  sf_heavy c (SF64add x y) = true.
Proof.
  intros Hc Hx Hy.
  destruct x as [[|]|[|]| |[|] mx ex], y as [[|]|[|]| |[|] my ey];
    try (simpl; first [discriminate | reflexivity | intros; assumption]; fail).
  intros Hh _. apply Z.leb_le in Hh.
  destruct (valid_finite_bounds _ _ _ Hx) as (Hex & Hdx & Hnx).
  destruct (valid_finite_bounds _ _ _ Hy) as (Hey & _).
  destruct (SFadd_same_sign false mx my ex ey) as (p & Heq & Hp).
  rewrite Heq.
  destruct (binary_round_cases false p (Z.min ex ey))
    as (m3 & e2 & Hr & H0 & H1 & _ & H3).
  rewrite Hr.
  assert (Hd : (Zdigits2 (Zpos mx) + (ex - Z.min ex ey) <= Zdigits2 (Zpos p))%Z).
  { rewrite <- Zdigits2_mul_pow by lia.
    apply Zdigits2_mono; [|exact Hp].
    apply Z.mul_pos_pos; [lia|]. apply Z.pow_pos_nonneg; lia. }
  rewrite fexp64_eq in H1.
  destruct H3 as [Hpos _]; [lia|].
  destruct m3; [lia| |lia].
  destruct (e2 <=? emax - prec)%Z; [|reflexivity].
  simpl. apply Z.leb_le. lia.
Qed.

(** Products: the sign is the exclusive or of the signs, and a product of
    finite values is not NaN. *)
Lemma SFmul_sign (x y : spec_float) (s : bool) :
  sf_sign (SF64mul x y) = Some s ->
  exists sx sy, sf_sign x = Some sx /\ sf_sign y = Some sy /\ s = xorb sx sy.
Proof.
  destruct x as [sx|sx| |sx mx ex], y as [sy|sy| |sy my ey];
    try (simpl; first [discriminate | intros [= <-]; eauto]; fail).
  unfold SF64mul, SFmul.
  destruct (bra_sign (xorb sx sy) (Zpos (mx * my)) (ex + ey) loc_Exact
              ltac:(lia)) as (m3 & e2 & -> & _).
  destruct m3; [| destruct (e2 <=? emax - prec)%Z |];
    simpl; first [discriminate | intros [= <-]; eauto].
Qed.

Lemma SFmul_nonneg (x y : spec_float) :
  sf_finite x = true -> sf_finite y = true ->
  sf_nonneg x = true -> sf_nonneg y = true ->
  sf_nonneg (SF64mul x y) = true.
Proof.
  destruct x as [[|]|[|]| |[|] mx ex], y as [[|]|[|]| |[|] my ey];
    try (simpl; first [discriminate | reflexivity]; fail).
  intros _ _ _ _. unfold SF64mul, SFmul.
  destruct (bra_sign (xorb false false) (Zpos (mx * my)) (ex + ey) loc_Exact
              ltac:(lia)) as (m3 & e2 & -> & H0).
  destruct m3; [| destruct (e2 <=? emax - prec)%Z |]; try reflexivity. lia.
Qed.

(** The quotient and the exponent that [SFdiv] hands to the rounding. *)
Lemma div_core_spec (m1 e1 m2 e2 : Z) :
  (0 < m1)%Z -> (0 < m2)%Z ->
  exists l,
    SFdiv_core_binary prec emax m1 e1 m2 e2
    = ((m1 * 2 ^ (e1 - e2
                  - Z.min (fexp prec emax
                             (Zdigits2 m1 + e1 - (Zdigits2 m2 + e2)))
                          (e1 - e2)) / m2)%Z,
       Z.min (fexp prec emax (Zdigits2 m1 + e1 - (Zdigits2 m2 + e2)))
             (e1 - e2),
       l).
Proof.
  intros H1 H2. unfold SFdiv_core_binary. cbv zeta.
  set (e' := Z.min _ (e1 - e2)).
  assert (Hs : (0 <= e1 - e2 - e')%Z) by (unfold e'; lia).
  assert (Hm : match (e1 - e2 - e')%Z with
               | 0%Z => m1
               | Zpos _ => Z.shiftl m1 (e1 - e2 - e')
               | Zneg _ => 0%Z
               end = (m1 * 2 ^ (e1 - e2 - e'))%Z).
  { destruct (e1 - e2 - e')%Z as [|p|p] eqn:E.
    - simpl. lia.
    - now rewrite Z.shiftl_mul_pow2.
    - lia. }
  rewrite Hm. unfold Z.div.
  destruct (Z.div_eucl (m1 * 2 ^ (e1 - e2 - e')) m2) as [q r].
  eexists. reflexivity.
Qed.

Lemma SFdiv_sign (x y : spec_float) (s : bool) :
  sf_sign (SF64div x y) = Some s ->
  exists sx sy, sf_sign x = Some sx /\ sf_sign y = Some sy /\ s = xorb sx sy.
Proof.
  destruct x as [sx|sx| |sx mx ex], y as [sy|sy| |sy my ey];
    try (simpl; first [discriminate | intros [= <-]; eauto]; fail).
  unfold SF64div, SFdiv.
  destruct (div_core_spec (Zpos mx) ex (Zpos my) ey ltac:(lia) ltac:(lia))
    as (l & ->).
  match goal with
  | |- context [binary_round_aux _ _ _ ?q ?e l] =>
      destruct (bra_sign (xorb sx sy) q e l) as (m3 & e2 & -> & _)
  end.
  { apply Z.div_pos; [|lia].
    apply Z.mul_nonneg_nonneg; [lia|]. apply Z.pow_nonneg. lia. }
  destruct m3; [| destruct (e2 <=? emax - prec)%Z |];
    simpl; first [discriminate | intros [= <-]; eauto].
Qed.

(** A value below [2^k] has at most [k] digits. *)
Lemma Zdigits2_le (m k : Z) :
  (0 < m)%Z -> (0 <= k)%Z -> (m < 2 ^ k)%Z -> (Zdigits2 m <= k)%Z.
Proof.
  intros Hm Hk Hlt.
  destruct (Zdigits2_bounds m Hm) as [Hlo _].
  pose proof (Zdigits2_pos m Hm) as Hd.
  assert (H : (2 ^ (Zdigits2 m - 1) < 2 ^ k)%Z) by lia.
  apply Z.pow_lt_mono_r_iff in H; lia.
Qed.

(** The quotient of a normal value by a finite one. *)
Lemma SFdiv_normal (sx sy : bool) (mx my : positive) (ex ey : Z) :
  valid_binary (S754_finite sx mx ex) = true ->
  valid_binary (S754_finite sy my ey) = true ->
  Zdigits2 (Zpos mx) = 53%Z -> (-1073 <= ex - ey)%Z ->
  exists m3 e3,
    SF64div (S754_finite sx mx ex) (S754_finite sy my ey)
    = match m3 with
      | Z0 => S754_zero (xorb sx sy)
      | Zpos m =>
          if (e3 <=? emax - prec)%Z
          then S754_finite (xorb sx sy) m e3
          else S754_infinity (xorb sx sy)
      | Zneg _ => S754_nan
      end /\
    (0 < m3)%Z /\
    (Z.min (Z.max (ex - ey - Zdigits2 (Zpos my)) (-1074)) (ex - ey) <= e3)%Z /\
    (e3 <= Z.max (ex - ey)
             (fexp prec emax (55 - Zdigits2 (Zpos my) + ex - ey)))%Z.
Proof.
  intros Hx Hy Hdx He.
  destruct (valid_finite_bounds _ _ _ Hx) as (Hex & _ & _).
  destruct (valid_finite_bounds _ _ _ Hy) as (Hey & Hdy & _).
  unfold SF64div, SFdiv.
  destruct (div_core_spec (Zpos mx) ex (Zpos my) ey ltac:(lia) ltac:(lia))
    as (l & ->).
  rewrite Hdx, fexp64_eq.
  set (dy := Zdigits2 (Zpos my)) in *.
  set (e' := Z.min (Z.max (53 + ex - (dy + ey) - 53) (-1074)) (ex - ey)).
  set (s := (ex - ey - e')%Z).
  assert (Hs : (1 <= s)%Z) by (unfold s, e'; lia).
  destruct (Zdigits2_bounds (Zpos mx) ltac:(lia)) as [Hmx_lo Hmx_hi].
  rewrite Hdx in Hmx_lo, Hmx_hi.
  change (2 ^ (53 - 1))%Z with 4503599627370496%Z in Hmx_lo.
  change (2 ^ 53)%Z with 9007199254740992%Z in Hmx_hi.
  destruct (Zdigits2_bounds (Zpos my) ltac:(lia)) as [Hmy_lo Hmy_hi].
  fold dy in Hmy_lo, Hmy_hi.
  assert (Hmy53 : (Zpos my < 9007199254740992)%Z).
  { apply Z.lt_le_trans with (1 := Hmy_hi).
    change 9007199254740992%Z with (2 ^ 53)%Z.
    apply Z.pow_le_mono_r; lia. }
  assert (H2s : (2 <= 2 ^ s)%Z).
  { change 2%Z with (2 ^ 1)%Z at 1. apply Z.pow_le_mono_r; lia. }
  set (q := (Zpos mx * 2 ^ s / Zpos my)%Z).
  assert (Hq : (0 < q)%Z).
  { apply Z.div_str_pos. split; [lia|]. nia. }
  assert (Hdq : (Zdigits2 q <= 54 + s - dy)%Z).
  { apply Zdigits2_le; [exact Hq | lia |].
    destruct (Z_lt_le_dec q (2 ^ (54 + s - dy))) as [Hlt|Hge]; [exact Hlt|].
    exfalso.
    assert (Hqm : (Zpos my * q <= Zpos mx * 2 ^ s)%Z)
      by (apply Z.mul_div_le; lia).
    assert (Hpow : (2 ^ (54 + s - dy) * 2 ^ (dy - 1) = 9007199254740992 * 2 ^ s)%Z).
    { rewrite <- Z.pow_add_r by lia.
      replace (54 + s - dy + (dy - 1))%Z with (53 + s)%Z by lia.
      rewrite Z.pow_add_r by lia. reflexivity. }
    assert (Hlow : (2 ^ (54 + s - dy) * 2 ^ (dy - 1) <= q * Zpos my)%Z).
    { apply Z.mul_le_mono_nonneg; try lia; apply Z.pow_nonneg; lia. }
    nia. }
  destruct (bra_cases (xorb sx sy) q e' l Hq)
    as (m3 & e3 & Heq & H0 & H1 & H2 & H3 & H4 & _).
  exists m3, e3. split; [exact Heq|].
  pose proof (Zdigits2_pos q Hq) as Hdq0.
  rewrite !fexp64_eq in *.
  split; [apply H4; unfold e'; lia|].
  split; [unfold e' in *; lia|].
  unfold s, e' in *. lia.
Qed.

(** The conversion of a positive [std::size_t] is a positive finite value of
    exponent at most 12. *)
Lemma of_size_t_spec (n : N) :
  (1 <= n < 2 ^ 64)%N ->
  exists m e,
    Prim2SF (of_size_t n) = S754_finite false m e /\ (e <= 12)%Z.
Proof.
  intros [Hlo Hhi]. unfold of_size_t.
  destruct n as [|p]; [lia|].
  change (Z.of_N (Npos p)) with (Zpos p). unfold binary_normalize.
  destruct (binary_round_cases false p 0)
    as (m3 & e2 & Heq & H0 & H1 & H2 & H3).
  assert (Hd : (Zdigits2 (Zpos p) <= 64)%Z).
  { apply Zdigits2_le; [lia | lia |].
    change (2 ^ 64)%Z with (Z.of_N (2 ^ 64)). lia. }
  pose proof (Zdigits2_pos (Zpos p) ltac:(lia)) as Hd0.
  destruct H3 as [Hpos Hcan]; [lia|].
  rewrite !fexp64_eq in H1, H2.
  destruct m3 as [|m|m]; [lia| |lia].
  assert (Hle : (e2 <=? emax - prec)%Z = true).
  { apply Z.leb_le. change (emax - prec)%Z with 971%Z. lia. }
  rewrite Hle in Heq. rewrite Heq.
  exists m, e2. split; [|lia].
  apply Prim2SF_SF2Prim.
  unfold SpecFloat.valid_binary, bounded, canonical_mantissa.
  change (Zpos (digits2_pos m)) with (Zdigits2 (Zpos m)).
  rewrite Hcan, Z.eqb_refl, Hle. reflexivity.
Qed.

End Binary64Operations.

(** ** Constant reward and zero noise *)

Section ConstantReward.

Import Binary64.

Context {Omega : Type}.
Variable next : Omega -> float -> float -> float * Omega.
Variable mean : Omega -> float -> float -> float * Omega.
Variable reward : float.

Lemma constant_reward_body (theta : float) (r : Rollout (L := dim1) Omega) :
  let r1 :=
    rollout_body (zero_noise_policy mean) (constant_reward_world reward next)
      theta r in
  rewards r1 = rewards r ++ [reward] /\ epsilons r1 = epsilons r ++ [0%float].
Proof.
  unfold rollout_body, zero_noise_policy, constant_reward_world. simpl.
  destruct (mean _ _ _) as [a o1].
  destruct (next _ _ _) as [s' o2].
  split; reflexivity.
Qed.

(** Every recorded reward is [reward], every recorded noise sample zero,
    and the rollout runs to the step limit. *)
Lemma constant_reward_rollout (theta : float) (episodeLength : N) (o : Omega)
    (r : Rollout (L := dim1) Omega) :
  rollout (zero_noise_policy mean) (constant_reward_world reward next) theta
    episodeLength o = Some r ->
  Forall (fun x => x = reward) (rewards r) /\
  Forall (fun e => e = 0%float) (epsilons r) /\
  episodeLength <= step r.
Proof.
  intros Hrun. split; [|split].
  - revert Hrun.
    apply (rollout_invariant _ _
             (fun r0 : Rollout (L := dim1) Omega => Forall (fun x => x = reward) (rewards r0))).
    + intros r0 H0.
      destruct (constant_reward_body theta r0) as [-> _].
      apply Forall_app. split; [exact H0 | repeat constructor].
    + intros r0 o0 H0. exact H0.
    + constructor.
  - revert Hrun.
    apply (rollout_invariant _ _
             (fun r0 : Rollout (L := dim1) Omega => Forall (fun e => e = 0%float) (epsilons r0))).
    + intros r0 H0.
      destruct (constant_reward_body theta r0) as [_ ->].
      apply Forall_app. split; [exact H0 | repeat constructor].
    + intros r0 o0 H0. exact H0.
    + constructor.
  - revert Hrun. apply rollout_never_terminal. reflexivity.
Qed.

End ConstantReward.

(** ** NaN in binary64 *)

Section Binary64NaN.

Import Binary64.
Local Open Scope float_scope.

(** NaN absorbs every operation the header uses. *)
Lemma mul_nan_l (x : float) : nan * x = nan.
Proof.
  apply Prim2SF_inj. rewrite mul_spec.
  change (Prim2SF nan) with S754_nan. reflexivity.
Qed.

Lemma mul_nan_r (x : float) : x * nan = nan.
Proof.
  apply Prim2SF_inj. rewrite mul_spec.
  change (Prim2SF nan) with S754_nan. destruct (Prim2SF x); reflexivity.
Qed.

Lemma add_nan_l (x : float) : nan + x = nan.
Proof.
  apply Prim2SF_inj. rewrite add_spec.
  change (Prim2SF nan) with S754_nan. reflexivity.
Qed.

Lemma add_nan_r (x : float) : x + nan = nan.
Proof.
  apply Prim2SF_inj. rewrite add_spec.
  change (Prim2SF nan) with S754_nan. destruct (Prim2SF x); reflexivity.
Qed.

Lemma div_nan_l (x : float) : nan / x = nan.
Proof.
  apply Prim2SF_inj. rewrite div_spec.
  change (Prim2SF nan) with S754_nan. reflexivity.
Qed.




Lemma noise_sum_stays_nan (l : list (float * float * float)) :
  fold_left (fun a weq => a + fst (fst weq) * snd (fst weq) * snd weq) l nan
  = nan.
Proof.
  induction l as [|[[w e] q] l IH]; simpl; [reflexivity|].
  now rewrite add_nan_l.
Qed.



(** A sum over the episodes of a batch that meets NaN is NaN. *)
Lemma sum_stays_nan (l : list float) : fold_left PrimFloat.add l nan = nan.
Proof.
  induction l as [|x l IH]; simpl; [reflexivity|]. now rewrite add_nan_l.
Qed.

Lemma sum_with_nan (l : list float) :
  forall acc : float, In nan l -> fold_left PrimFloat.add l acc = nan.
Proof.
  induction l as [|x l IH]; intros acc Hin; [destruct Hin|].
  simpl. destruct Hin as [->|Hin].
  - rewrite add_nan_r. apply sum_stays_nan.
  - now apply IH.
Qed.

End Binary64NaN.

(** ** Sums accumulated from [+0.0] *)

Section Binary64Sums.

Import Binary64.
Local Open Scope float_scope.







End Binary64Sums.

(** ** Weights and sums that are not negative *)

Section Binary64Magnitudes.

Import Binary64.
Local Open Scope float_scope.

(** A weight is a square times the reciprocal of a quadratic form with a
    positive sigma: when it is finite, its sign bit is clear. *)
Lemma scaled_outer_nonneg (s : float) :
  is_finite (scaled_outer (L := dim1) 0.5 s) = true ->
  sf_nonneg (Prim2SF (scaled_outer (L := dim1) 0.5 s)) = true.
Proof.
  rewrite is_finite_spec. unfold scaled_outer. simpl.
  unfold sf_nonneg.
  destruct (sf_sign (Prim2SF (s * s * (1 / (s * 0.5 * s))))) as [b|] eqn:E;
    [intros _ | destruct (Prim2SF (s * s * (1 / (s * 0.5 * s))));
                  simpl in *; discriminate].
  rewrite mul_spec in E.
  destruct (SFmul_sign _ _ _ E) as (b1 & b2 & E1 & E2 & ->).
  rewrite mul_spec in E1.
  destruct (SFmul_sign _ _ _ E1) as (sx & sy & Ex & Ey & ->).
  rewrite div_spec in E2.
  destruct (SFdiv_sign _ _ _ E2) as (c1 & c2 & F1 & F2 & ->).
  rewrite mul_spec in F2.
  destruct (SFmul_sign _ _ _ F2) as (d1 & d2 & G1 & G2 & ->).
  rewrite mul_spec in G1.
  destruct (SFmul_sign _ _ _ G1) as (h1 & h2 & K1 & K2 & ->).
  vm_compute in F1. vm_compute in K2.
  destruct (sf_sign (Prim2SF s)) as [sg|]; [|discriminate].
  injection Ex as <-. injection Ey as <-. injection F1 as <-.
  injection G2 as <-. injection K1 as <-. injection K2 as <-.
  destruct sg; reflexivity.
Qed.

(** Sums of large values are large. *)
Lemma add_heavy (c : Z) (x y : float) :
  (-1074 < c)%Z ->
  sf_heavy c (Prim2SF x) = true -> sf_nonneg (Prim2SF y) = true ->
  sf_heavy c (Prim2SF (x + y)) = true.
Proof.
  intros Hc Hx Hy. rewrite add_spec.
  apply SFadd_heavy; try apply Prim2SF_valid; assumption.
Qed.

(** The weight sum of a three-step episode with reward-to-go 3, 2, 1, the
    identity at step 0 and two finite weights that are not negative: it is
    [+infinity] or has the exponent of 3 or a larger one. *)
Lemma weight_sum_heavy (w1 w2 : float) :
  is_finite w1 = true -> is_finite w2 = true ->
  sf_nonneg (Prim2SF w1) = true -> sf_nonneg (Prim2SF w2) = true ->
  sf_heavy (-51) (Prim2SF (0 + 1 * 3 + w1 * 2 + w2 * 1)) = true.
Proof.
  rewrite !is_finite_spec. intros F1 F2 N1 N2.
  change (0 + 1 * 3) with 3.
  apply add_heavy; [lia| |].
  - apply add_heavy; [lia|reflexivity|].
    rewrite mul_spec. now apply SFmul_nonneg.
  - rewrite mul_spec. now apply SFmul_nonneg.
Qed.

Lemma heavy_nonneg (c : Z) (x : spec_float) :
  sf_heavy c x = true -> sf_nonneg x = true.
Proof.
  destruct x as [[|]|[|]| |[|] m e]; simpl; try discriminate; reflexivity.
Qed.

Lemma fold_add_heavy (c : Z) (l : list float) :
  (-1074 < c)%Z ->
  Forall (fun w => sf_heavy c (Prim2SF w) = true) l ->
  forall acc : float,
    sf_heavy c (Prim2SF acc) = true ->
    sf_heavy c (Prim2SF (fold_left PrimFloat.add l acc)) = true.
Proof.
  intros Hc Hl. induction Hl as [|w l Hw Hl IH]; intros acc Hacc; simpl;
    [exact Hacc|].
  apply IH. apply add_heavy; [exact Hc | exact Hacc|].
  now apply heavy_nonneg with c.
Qed.

Lemma sum_heavy (c : Z) (l : list float) :
  (-1074 < c)%Z -> l <> [] ->
  Forall (fun w => sf_heavy c (Prim2SF w) = true) l ->
  sf_heavy c (Prim2SF (fold_left PrimFloat.add l 0)) = true.
Proof.
  intros Hc Hne Hl. destruct l as [|w l]; [congruence|].
  apply Forall_cons_iff in Hl. destruct Hl as [Hw Hl].
  simpl. apply fold_add_heavy; [exact Hc | exact Hl|].
  rewrite add_comm. apply add_heavy; [exact Hc | exact Hw | reflexivity].
Qed.

Lemma sum_zero (l : list float) :
  Forall (fun e => e = 0) l -> fold_left PrimFloat.add l 0 = 0.
Proof.
  intros Hl. induction Hl as [|e l -> Hl IH]; [reflexivity|].
  simpl. exact IH.
Qed.

(** The update of a batch of [n] episodes whose weight sums add up to a
    large value [S] and whose noise-weighted sums add up to [+0.0]: the
    mean weight is positive and not subnormal, so its inverse is finite,
    and the update is that inverse times zero. *)
Lemma update_zero (S : float) (n : N) :
  (1 <= n < 2 ^ 64)%N ->
  sf_heavy (-51) (Prim2SF S) = true ->
  is_finite (1 / (S / of_size_t n) * (0 / of_size_t n)) = true /\
  is_zero (1 / (S / of_size_t n) * (0 / of_size_t n)) = true.
Proof.
  intros Hn HS.
  destruct (of_size_t_spec n Hn) as (mn & en & En & Hen).
  pose proof (Prim2SF_valid (of_size_t n)) as Vn. rewrite En in Vn.
  destruct (valid_finite_bounds _ _ _ Vn) as (Ben & Bdn & _).
  assert (HN : is_zero (0 / of_size_t n) = true).
  { rewrite is_zero_spec, div_spec, En. reflexivity. }
  assert (HW : sf_heavy (-116) (Prim2SF (S / of_size_t n)) = true).
  { rewrite div_spec, En.
    pose proof (Prim2SF_valid S) as VS.
    destruct (Prim2SF S) as [[|]|[|]| |[|] mS eS]; try discriminate;
      [reflexivity|].
    simpl in HS. apply Z.leb_le in HS.
    destruct (valid_finite_bounds _ _ _ VS) as (BeS & BdS & NS).
    destruct (SFdiv_normal false false mS mn eS en VS Vn ltac:(lia) ltac:(lia))
      as (m3 & e3 & -> & Hpos & Hlo & _).
    destruct m3 as [|m|m]; [lia| |lia].
    destruct (e3 <=? emax - prec)%Z; [|reflexivity].
    simpl. apply Z.leb_le. lia. }
  assert (HI : is_finite (1 / (S / of_size_t n)) = true).
  { rewrite is_finite_spec, div_spec.
    pose proof (Prim2SF_valid (S / of_size_t n)) as VW.
    pose proof (Prim2SF_valid 1) as V1.
    change (Prim2SF 1) with (S754_finite false 4503599627370496 (-52)) in *.
    destruct (Prim2SF (S / of_size_t n)) as [[|]|[|]| |[|] mW eW];
      try discriminate; [reflexivity|].
    simpl in HW. apply Z.leb_le in HW.
    destruct (valid_finite_bounds _ _ _ VW) as (BeW & BdW & NW).
    destruct (SFdiv_normal false false 4503599627370496 mW (-52) eW V1 VW
                eq_refl ltac:(lia))
      as (m3 & e3 & -> & Hpos & _ & Hhi).
    rewrite NW in Hhi by lia. rewrite fexp64_eq in Hhi.
    destruct m3 as [|m|m]; [lia| |lia].
    replace (e3 <=? emax - prec)%Z with true; [reflexivity|].
    symmetry. apply Z.leb_le. change (emax - prec)%Z with 971%Z. lia. }
  split.
  - apply zero_is_finite. now apply mul_zero_r.
  - now apply mul_zero_r.
Qed.

(** An infinity or NaN times zero is NaN. *)
Lemma mul_nonfinite_zero (w : float) : is_finite w = false -> w * 0 = nan.
Proof.
  rewrite is_finite_spec. intros Hw.
  apply Prim2SF_inj. rewrite mul_spec.
  change (Prim2SF 0) with (S754_zero false).
  change (Prim2SF nan) with S754_nan.
  destruct (Prim2SF w); try discriminate; reflexivity.
Qed.

(** With a zero noise sample, one weight that is not finite makes the
    noise-weighted sum NaN. *)
Lemma noise_weighted_sum_nonfinite (ws es agg : list float) :
  forall (k : nat) (w q : float),
    nth_error ws k = Some w -> nth_error es k = Some 0 ->
    nth_error agg k = Some q ->
    is_finite w = false ->
    noise_weighted_sum (L := dim1) ws es agg = nan.
Proof.
  unfold noise_weighted_sum. simpl. generalize 0 at 2 as acc.
  revert es agg.
  induction ws as [|w0 ws IH]; intros es agg acc k w q Hw He Hq Hnf;
    [destruct k; discriminate|].
  destruct es as [|e0 es]; [destruct k; discriminate|].
  destruct agg as [|q0 agg]; [destruct k; discriminate|].
  destruct k as [|k]; simpl in *.
  - injection Hw as ->. injection He as ->.
    rewrite (mul_nonfinite_zero _ Hnf), mul_nan_l, add_nan_r.
    apply noise_sum_stays_nan.
  - now apply (IH es agg _ k w q).
Qed.

(** The update of a batch one of whose noise-weighted sums is NaN. *)
Lemma update_nan (W : float) (l : list float) (c : float) :
  In nan l ->
  (1 / (W / c)) * (fold_left PrimFloat.add l 0 / c) = nan.
Proof.
  intros Hin. rewrite (sum_with_nan l 0 Hin), div_nan_l. apply mul_nan_r.
Qed.

End Binary64Magnitudes.

(** ** Constant reward 1, zero noise, three steps *)

Section ScenarioA.

Import Binary64.

Context {Omega : Type}.
Variable next : Omega -> float -> float -> float * Omega.
Variable mean : Omega -> float -> float -> float * Omega.
Variable theta : float.
Variable uninitialized_W : float.
Variable uninitialized_P : float.

(** One episode: the total is 3 and the weight of step 0 is 1.  When the
    weights of steps 1 and 2 are finite, the weight sum is large (at least
    2) and the noise-weighted sum is [+0.0]; when one of them is not, the
    noise-weighted sum is NaN. *)
Lemma scenario_episode (o : Omega) :
  exists (r : Rollout (L := dim1) Omega) (W E : float),
    rollout (zero_noise_policy mean) (constant_reward_world 1 next) theta 3 o
    = Some r /\
    step r = 3 /\ length (states r) = 3%nat /\
    episode (zero_noise_policy mean) (constant_reward_world 1 next) theta
      uninitialized_W uninitialized_P 0.5%float 3 o
    = Some (3%float, W, E, omega r) /\
    step_weight (L := dim1) 0.5%float (states r) 0 = Some 1%float /\
    ((forall s, In s (tl (states r)) ->
                is_finite (scaled_outer (L := dim1) 0.5%float s) = true) ->
     sf_heavy (-51) (Prim2SF W) = true /\ E = 0%float) /\
    ((exists s, In s (tl (states r)) /\
                is_finite (scaled_outer (L := dim1) 0.5%float s) = false) ->
     E = nan).
Proof.
  destruct (episode_spec (zero_noise_policy mean)
              (constant_reward_world 1 next) theta uninitialized_W
              uninitialized_P 0.5%float 3 o eq_refl)
    as (r & Hrun & (Hr & He & Hs) & Hstep & Hep).
  destruct (constant_reward_rollout next mean 1%float theta 3 o r Hrun)
    as (Hrw & Hes & Hge).
  assert (H3 : step r = 3) by lia.
  unfold SizeT.size in Hr, He, Hs. rewrite H3 in Hr, He, Hs.
  destruct (rewards r) as [|x [|y [|z [|]]]] eqn:Erw;
    try (simpl in Hr; lia).
  destruct (epsilons r) as [|e0 [|e1 [|e2 [|]]]] eqn:Ees;
    try (simpl in He; lia).
  destruct (states r) as [|s0 [|s1 [|s2 [|]]]] eqn:Ess;
    try (simpl in Hs; lia).
  repeat match goal with
         | H : Forall _ (_ :: _) |- _ =>
             apply Forall_cons_iff in H; destruct H as [-> H]
         end.
  change (reward_to_go _) with [3; 2; 1]%float in Hep. cbn [hd] in Hep.
  match type of Hep with
  | _ = Some (_, ?w, ?e, _) => set (W := w) in *; set (E := e) in *
  end.
  exists r, W, E.
  split; [exact Hrun|]. split; [exact H3|]. rewrite Ess.
  split; [reflexivity|]. split; [exact Hep|].
  split; [reflexivity|]. split.
  - intros Hweights.
    assert (F1 : is_finite (scaled_outer (L := dim1) 0.5%float s1) = true)
      by (apply Hweights; simpl; auto).
    assert (F2 : is_finite (scaled_outer (L := dim1) 0.5%float s2) = true)
      by (apply Hweights; simpl; auto).
    split.
    + apply (weight_sum_heavy _ _ F1 F2); now apply scaled_outer_nonneg.
    + apply noise_weighted_sum_zero.
      * simpl. repeat constructor; try reflexivity; assumption.
      * repeat constructor.
      * repeat constructor.
  - intros (s & Hin & Hnf).
    destruct Hin as [<-|[<-|[]]].
    + apply (noise_weighted_sum_nonfinite _ _ _ 1
               (scaled_outer (L := dim1) 0.5%float s1) 2%float);
        [reflexivity | reflexivity | reflexivity | exact Hnf].
    + apply (noise_weighted_sum_nonfinite _ _ _ 2
               (scaled_outer (L := dim1) 0.5%float s2) 1%float);
        [reflexivity | reflexivity | reflexivity | exact Hnf].
Qed.

(** A batch: as many trajectories as episodes, and every episode returns
    what [scenario_episode] says of its trajectory. *)
Lemma scenario_batch (n : nat) :
  forall o : Omega,
    exists trajectories results o',
      batch_rollouts (zero_noise_policy mean) (constant_reward_world 1 next)
        n theta 3 o = Some trajectories /\
      run_episodes (zero_noise_policy mean) (constant_reward_world 1 next)
        uninitialized_W uninitialized_P n theta 3 o
      = Some (results, o') /\
      length trajectories = n /\ length results = n /\
      Forall (fun r : Rollout (L := dim1) Omega => length (states r) = 3%nat)
        trajectories /\
      Forall (fun x : float * float * float => fst (fst x) = 3%float)
        results /\
      (Forall (fun r : Rollout (L := dim1) Omega =>
                 forall s, In s (tl (states r)) ->
                           is_finite (scaled_outer (L := dim1) 0.5%float s)
                           = true) trajectories ->
       Forall (fun x : float * float * float =>
                 sf_heavy (-51) (Prim2SF (snd (fst x))) = true /\
                 snd x = 0%float) results) /\
      (Exists (fun r : Rollout (L := dim1) Omega =>
                 exists s, In s (tl (states r)) /\
                           is_finite (scaled_outer (L := dim1) 0.5%float s)
                           = false) trajectories ->
       In nan (map (fun x : float * float * float => snd x) results)).
Proof.
  induction n as [|n IH]; intros o.
  - exists [], [], o. simpl. repeat split; auto.
    intros H. inversion H.
  - destruct (scenario_episode o)
      as (r & W & E & Hrun & _ & Hlen & Hep & _ & Hgood & Hbad).
    destruct (IH (omega r))
      as (rs & results & o' & Hrs & Hrun' & Hn & Hn' & Hlens & Htot
          & Hfin & Hnan).
    exists (r :: rs), ((3%float, W, E) :: results), o'.
    cbn [batch_rollouts run_episodes].
    change (@d_half dim1) with 0.5%float.
    rewrite Hrun, Hep. cbn [bind]. rewrite Hrs, Hrun'. cbn [bind].
    split; [reflexivity|]. split; [reflexivity|].
    split; [simpl; now f_equal|]. split; [simpl; now f_equal|].
    split; [now constructor|]. split; [now constructor|].
    split.
    + intros Hall. apply Forall_cons_iff in Hall. destruct Hall as [Hr Hall].
      constructor; [exact (Hgood Hr) | exact (Hfin Hall)].
    + intros Hex. apply Exists_cons in Hex. destruct Hex as [Hr|Hex].
      * left. simpl. now apply Hbad.
      * right. now apply Hnan.
Qed.

End ScenarioA.

(** * The claims *)

(** C1.  For every world, parameter theta, episode count and step limit,
    [episodes] sums the per-episode weight sums and noise-weighted sums,
    divides each sum by the episode count to obtain the means, returns as
    update vector the inverse of the mean weight applied to the mean
    noise-weighted sum, and returns the arithmetic mean of the per-episode
    total returns: it computes [average_episodes], and it always returns. *)
Theorem episodes_computes_average {L : LinAlg} {Omega : Type}
    (policy : NoisePolicy Omega) (world : IWorld Omega)
    (uninitialized_W : TWeight) (uninitialized_P : TParameter)
    (theta update : TParameter) (updateEpisode episodeLength : N) (o : Omega) :
  1 <= updateEpisode ->
  SizeT.in_range updateEpisode -> SizeT.in_range episodeLength ->
  episodes policy world uninitialized_W uninitialized_P theta update
    updateEpisode episodeLength o
  = average_episodes policy world uninitialized_W uninitialized_P theta
      updateEpisode episodeLength o /\
  exists mean_return update_vector o',
    episodes policy world uninitialized_W uninitialized_P theta update
      updateEpisode episodeLength o
    = Some (mean_return, update_vector, o').
Proof.
  intros _ Hn Hlen. split.
  - now apply episodes_average.
  - now apply episodes_total.
Qed.

Lemma episodes_computes_average_witness :
  1 <= 2 /\ SizeT.in_range 2 /\ SizeT.in_range 5 /\
  episodes Exact.half_noise_policy Exact.counting_world 7%Q 8%Q (1 # 3)%Q 9%Q
    2 5 tt
  = average_episodes Exact.half_noise_policy Exact.counting_world 7%Q 8%Q
      (1 # 3)%Q 2 5 tt.
Proof.
  split; [vm_compute; discriminate|].
  split; [reflexivity|]. split; [reflexivity|].
  apply (episodes_computes_average (L := Exact.dim1)
           Exact.half_noise_policy Exact.counting_world 7%Q 8%Q (1 # 3)%Q 9%Q
           2 5 tt);
    [vm_compute; discriminate | reflexivity | reflexivity].
Defined.

(** C2, as amended.  In binary64, for every recorded reward sequence
    [r0, ..., rn] (written [front ++ [r_n]]), the reward-to-go pass yields
    a sequence [agg] of the same length with [agg[n] = 0.0 + r_n], which is
    [r_n] unless [r_n] is [-0.0]; [agg[i] = r_i + agg[i+1]] for all
    [i < n], one binary64 addition each; and [agg[0]] the rewards added up
    from the last to the first, [((0.0 + r_n) + ...) + r_0]; and [episode]
    returns that [agg[0]].  All NaNs are one value here. *)
Theorem reward_to_go_correct {Omega : Type}
    (policy : NoisePolicy (L := Binary64.dim1) Omega)
    (world : IWorld (L := Binary64.dim1) Omega) :
  (forall (front : list float) (r_n : float),
      let agg := reward_to_go (L := Binary64.dim1) (front ++ [r_n]) in
      length agg = length (front ++ [r_n]) /\
      nth_error agg (length front) = Some (0 + r_n)%float /\
      (r_n <> (-0)%float -> nth_error agg (length front) = Some r_n) /\
      (forall (i : nat) (r_i a : float),
          (i < length front)%nat ->
          nth_error (front ++ [r_n]) i = Some r_i ->
          nth_error agg (S i) = Some a ->
          nth_error agg i = Some (r_i + a)%float) /\
      nth_error agg 0
      = Some (fold_right (fun x acc => (acc + x)%float) 0%float
                (front ++ [r_n]))) /\
  (forall (theta weightRewards epsilonRewards sigma : float)
          (episodeLength : N) (o : Omega),
      SizeT.in_range episodeLength ->
      exists r weightRewards' epsilonRewards',
        rollout policy world theta episodeLength o = Some r /\
        nth_error (reward_to_go (L := Binary64.dim1) (rewards r)) 0
        = Some (fold_right (fun x acc => (acc + x)%float) 0%float
                  (rewards r)) /\
        episode policy world theta weightRewards epsilonRewards sigma
          episodeLength o
        = Some (fold_right (fun x acc => (acc + x)%float) 0%float (rewards r),
                weightRewards', epsilonRewards', omega r)).
Proof.
  split.
  - intros front r_n agg. subst agg.
    set (rs := front ++ [r_n]).
    assert (Hlen : length (reward_to_go (L := Binary64.dim1) rs) = length rs)
      by apply (reward_to_go_length (L := Binary64.dim1)).
    assert (Hlast : nth_error rs (length front) = Some r_n).
    { unfold rs. rewrite nth_error_app2, Nat.sub_diag by lia. reflexivity. }
    assert (Hn : nth_error (reward_to_go (L := Binary64.dim1) rs)
                   (length front) = Some (0 + r_n)%float).
    { refine (eq_trans
                (reward_to_go_nth (L := Binary64.dim1) rs _ _ Hlast) _).
      replace (nth_error (reward_to_go (L := Binary64.dim1) rs)
                 (S (length front))) with (@None float); [reflexivity|].
      symmetry. apply nth_error_None. apply Nat.eq_le_incl.
      refine (eq_trans Hlen _). unfold rs.
      rewrite length_app. simpl. lia. }
    split; [exact Hlen|]. split; [exact Hn|]. split; [|split].
    + intros Hr. refine (eq_trans Hn _). f_equal. now apply add_zero_l.
    + intros i r_i a _ Hi Ha.
      refine (eq_trans
                (reward_to_go_nth (L := Binary64.dim1) rs _ _ Hi) _).
      destruct (nth_error (reward_to_go (L := Binary64.dim1) rs) (S i));
        [|discriminate].
      injection Ha as ->. f_equal. apply add_comm.
    + apply (reward_to_go_nth_fold (L := Binary64.dim1) rs 0).
      unfold rs. rewrite length_app. simpl. lia.
  - intros theta weightRewards epsilonRewards sigma episodeLength o Hrange.
    destruct (episode_spec policy world theta weightRewards epsilonRewards
                sigma episodeLength o Hrange)
      as (r & Hrun & (Hr & _) & Hstep & Hep).
    exists r. eexists. eexists. split; [exact Hrun|]. split.
    + apply (reward_to_go_nth_fold (L := Binary64.dim1) (rewards r) 0).
      unfold SizeT.size in Hr. lia.
    + refine (eq_trans Hep _). do 4 f_equal.
      apply (reward_to_go_hd_fold (L := Binary64.dim1)).
Qed.

Lemma reward_to_go_correct_witness :
  (0.5 <> (-0))%float /\ (0 < length [1; 2]%float)%nat /\
  nth_error (reward_to_go (L := Binary64.dim1) ([1; 2] ++ [0.5])%float) 2
  = Some 0.5%float /\
  nth_error (reward_to_go (L := Binary64.dim1) ([1; 2] ++ [0.5])%float) 0
  = Some (1 + 2.5)%float.
Proof.
  assert (H : (0.5 <> (-0))%float).
  { intros E. apply (f_equal Prim2SF) in E. vm_compute in E. discriminate. }
  destruct (proj1 (reward_to_go_correct
                     (Binary64.zero_noise_policy Binary64.linear)
                     (Binary64.constant_reward_world 1 Binary64.advance))
              [1; 2]%float 0.5%float) as (_ & _ & Hn & Hi & _).
  split; [exact H|]. split; [simpl; lia|]. split; [exact (Hn H)|].
  apply (Hi 0%nat 1%float 2.5%float); [simpl; lia | reflexivity | reflexivity].
Defined.

(** C2 as stated fails in binary64: for the rewards [1, -0.0] the last
    entry is [+0.0], not the last reward; and for the rewards
    [1e16, 1, 1] the first entry is [1e16 + 2], while their sum taken from
    the first to the last is [1e16]. *)
Lemma reward_to_go_counterexample :
  nth_error (reward_to_go (L := Binary64.dim1) ([1] ++ [-0])%float) 1
  = Some 0%float /\
  (0 <> (-0))%float /\
  nth_error (reward_to_go (L := Binary64.dim1) [1e16; 1; 1]%float) 0
  = Some 10000000000000002%float /\
  d_sum (L := Binary64.dim1) [1e16; 1; 1]%float = 1e16%float /\
  (10000000000000002 <> 1e16)%float.
Proof.
  split; [vm_compute; reflexivity|].
  split; [intros E; apply (f_equal Prim2SF) in E; vm_compute in E;
          discriminate|].
  split; [vm_compute; reflexivity|].
  split; [vm_compute; reflexivity|].
  intros E. apply (f_equal Prim2SF) in E. vm_compute in E. discriminate.
Qed.

(** C3.  For every world, theta and step limit, the rollout of [episode]
    ends and records at least one transition (one entry in each of the
    three vectors), also when the initial state is terminal; for a step
    limit of at least 1 it records at most that many.  At the step limit 0
    it records one transition all the same: the loop body runs before the
    limit is read.  That is more than the limit, which the comment above
    [episode] calls the maximum length. *)
Theorem rollout_length_bounds {L : LinAlg} {Omega : Type}
    (policy : NoisePolicy Omega) (world : IWorld Omega)
    (theta : TParameter) :
  (forall (episodeLength : N) (o : Omega),
      SizeT.in_range episodeLength ->
      exists r,
        rollout policy world theta episodeLength o = Some r /\
        recorded r /\
        1 <= SizeT.size (rewards r) /\
        (1 <= episodeLength -> SizeT.size (rewards r) <= episodeLength)) /\
  (forall o : Omega,
      exists r,
        rollout policy world theta 0 o = Some r /\
        recorded r /\
        SizeT.size (rewards r) = 1 /\
        ~ SizeT.size (rewards r) <= 0).
Proof.
  split.
  - intros episodeLength o Hrange.
    destruct (rollout_total policy world theta episodeLength o Hrange)
      as (r & Hrun & Hrec & Hlo & Hhi).
    exists r. split; [exact Hrun|]. split; [exact Hrec|].
    destruct Hrec as (Hr & _). rewrite Hr. split; lia.
  - intros o.
    destruct (rollout_total policy world theta 0 o eq_refl)
      as (r & Hrun & Hrec & Hlo & Hhi).
    exists r. split; [exact Hrun|]. split; [exact Hrec|].
    assert (H1 : step r = 1) by (simpl in Hhi; lia).
    destruct Hrec as (Hr & _). rewrite Hr, H1.
    split; [reflexivity|]. lia.
Qed.

Lemma rollout_length_bounds_witness :
  SizeT.in_range 5 /\ 1 <= 5 /\
  (exists r,
      rollout Exact.half_noise_policy Exact.counting_world (1 # 3)%Q 5 tt
      = Some r /\
      1 <= SizeT.size (rewards r) /\ SizeT.size (rewards r) <= 5) /\
  (exists r,
      rollout (Binary64.zero_noise_policy Binary64.linear)
        (Binary64.constant_reward_world 1 Binary64.stay) 0.25%float 0 tt
      = Some r /\
      SizeT.size (rewards r) = 1).
Proof.
  split; [reflexivity|]. split; [lia|]. split.
  - destruct (proj1 (rollout_length_bounds (L := Exact.dim1)
                       Exact.half_noise_policy Exact.counting_world
                       (1 # 3)%Q) 5 tt eq_refl)
      as (r & Hrun & _ & Hlo & Hhi).
    exists r. split; [exact Hrun|]. split; [exact Hlo|]. apply Hhi. lia.
  - destruct (proj2 (rollout_length_bounds (L := Binary64.dim1)
                       (Binary64.zero_noise_policy Binary64.linear)
                       (Binary64.constant_reward_world 1 Binary64.stay)
                       0.25%float) tt)
      as (r & Hrun & _ & H1 & _).
    exists r. split; [exact Hrun | exact H1].
Defined.

(** C8.  Within every episode, the numbers of recorded noise samples,
    recorded states and recorded rewards are the same, and equal to the
    number of executed steps (the counter [step], which counts the rounds
    of the loop without wrapping). *)
Theorem rollout_records_every_step {L : LinAlg} {Omega : Type}
    (policy : NoisePolicy Omega) (world : IWorld Omega)
    (theta : TParameter) (episodeLength : N) (o : Omega) :
  SizeT.in_range episodeLength ->
  exists r,
    rollout policy world theta episodeLength o = Some r /\
    SizeT.size (epsilons r) = step r /\
    SizeT.size (states r) = step r /\
    SizeT.size (rewards r) = step r.
Proof.
  intros Hrange.
  destruct (rollout_total policy world theta episodeLength o Hrange)
    as (r & Hrun & (Hr & He & Hs) & _).
  exists r. auto.
Qed.

Lemma rollout_records_every_step_witness :
  SizeT.in_range 5 /\
  exists r,
    rollout Exact.half_noise_policy Exact.counting_world (1 # 3)%Q 5 tt
    = Some r /\
    SizeT.size (epsilons r) = step r /\
    SizeT.size (states r) = step r /\
    SizeT.size (rewards r) = step r.
Proof.
  split; [reflexivity|].
  apply (rollout_records_every_step (L := Exact.dim1) Exact.half_noise_policy
           Exact.counting_world (1 # 3)%Q 5 tt).
  reflexivity.
Defined.

(** C6.  For every episode, the weight of step 0 is the identity matrix
    whatever the recorded states are, the weight of every step [i > 0] is
    the outer product of [state_i] with itself scaled by
    [1 / (state_i^T * sigma * state_i)], and these are the weights whose
    products with the rewards-to-go the episode accumulates into its two
    sums. *)
Theorem precision_weight_per_step {L : LinAlg} {Omega : Type}
    (policy : NoisePolicy Omega) (world : IWorld Omega)
    (theta : TParameter) (weightRewards : TWeight)
    (epsilonRewards : TParameter) (sigma : double) (episodeLength : N)
    (o : Omega) :
  SizeT.in_range episodeLength ->
  exists r total,
    rollout policy world theta episodeLength o = Some r /\
    (forall any_states : list TParameter,
        step_weight sigma any_states 0 = Some W_Identity) /\
    (forall i : N,
        0 < i < step r ->
        exists state_i,
          nth_error (states r) (N.to_nat i) = Some state_i /\
          step_weight sigma (states r) i
          = Some (W_times (outer state_i state_i)
                    (d_div d_one (quadratic state_i sigma state_i)))) /\
    episode policy world theta weightRewards epsilonRewards sigma
      episodeLength o
    = Some (total,
            weight_sum (precision_weights sigma (states r))
              (reward_to_go (rewards r)),
            noise_weighted_sum (precision_weights sigma (states r))
              (epsilons r) (reward_to_go (rewards r)),
            omega r).
Proof.
  intros Hrange.
  destruct (episode_spec policy world theta weightRewards epsilonRewards
              sigma episodeLength o Hrange)
    as (r & Hrun & (_ & _ & Hs) & _ & Hep).
  exists r. eexists.
  split; [exact Hrun|]. split; [reflexivity|]. split; [|exact Hep].
  intros i [Hpos Hlt].
  destruct (nth_error_in_range (states r) (N.to_nat i)) as [s Hsi].
  { unfold SizeT.size in Hs. lia. }
  exists s. split; [exact Hsi|].
  unfold step_weight.
  replace (i =? 0) with false by (symmetry; apply N.eqb_neq; lia).
  rewrite Hsi. reflexivity.
Qed.

Lemma precision_weight_per_step_witness :
  SizeT.in_range 5 /\
  exists r total,
    rollout Exact.half_noise_policy Exact.counting_world (1 # 3)%Q 5 tt
    = Some r /\
    (forall any_states : list Q,
        step_weight (L := Exact.dim1) (1 # 2)%Q any_states 0 = Some 1%Q) /\
    (forall i : N,
        0 < i < step r ->
        exists state_i,
          nth_error (states r) (N.to_nat i) = Some state_i /\
          step_weight (L := Exact.dim1) (1 # 2)%Q (states r) i
          = Some (Qmult (Qmult state_i state_i)
                    (Qdiv 1 (Qmult (Qmult state_i (1 # 2)) state_i)))) /\
    episode Exact.half_noise_policy Exact.counting_world (1 # 3)%Q 7%Q 8%Q
      (1 # 2)%Q 5 tt
    = Some (total,
            weight_sum (precision_weights (L := Exact.dim1) (1 # 2)%Q (states r))
              (reward_to_go (rewards r)),
            noise_weighted_sum
              (precision_weights (L := Exact.dim1) (1 # 2)%Q (states r))
              (epsilons r) (reward_to_go (rewards r)),
            tt).
Proof.
  split; [reflexivity|].
  destruct (precision_weight_per_step (L := Exact.dim1)
              Exact.half_noise_policy Exact.counting_world (1 # 3)%Q 7%Q 8%Q
              (1 # 2)%Q 5 tt) as (r & total & Hrun & H0 & Hi & Hep);
    [reflexivity|].
  exists r, total. destruct (omega r). auto.
Defined.

(** C10.  The outputs of [episode] (the returned total reward and the final
    values of the two out-parameters) do not depend on what the two
    out-parameters held when it was called: both are set to zero before the
    weighting pass. *)
Theorem episode_overwrites_out_parameters {L : LinAlg} {Omega : Type}
    (policy : NoisePolicy Omega) (world : IWorld Omega)
    (theta : TParameter) (sigma : double) (episodeLength : N) (o : Omega)
    (weightRewards weightRewards' : TWeight)
    (epsilonRewards epsilonRewards' : TParameter) :
  episode policy world theta weightRewards epsilonRewards sigma
    episodeLength o
  = episode policy world theta weightRewards' epsilonRewards' sigma
      episodeLength o.
Proof.
  unfold episode.
  destruct (rollout policy world theta episodeLength o) as [r|];
    [|reflexivity].
  cbn [bind]. unfold aggregate. reflexivity.
Qed.

(** C5.  For every number of updates [n], [power] performs exactly [n]
    rounds, each calling [episodes] with the current theta and then adding
    the returned update vector to theta: it is the [n]-fold improvement
    step, it always returns, and for [n = 0] it leaves theta unchanged. *)
Theorem power_iterates {L : LinAlg} {Omega : Type}
    (policy : NoisePolicy Omega) (world : IWorld Omega)
    (uninitialized_W : TWeight) (uninitialized_P : TParameter)
    (theta : TParameter) (updates updateEpisode episodeLength : N)
    (o : Omega) :
  SizeT.in_range updates -> SizeT.in_range updateEpisode ->
  SizeT.in_range episodeLength ->
  power policy world uninitialized_W uninitialized_P theta updates
    updateEpisode episodeLength o
  = improve policy world uninitialized_W uninitialized_P (N.to_nat updates)
      theta updateEpisode episodeLength o /\
  (exists theta' o',
      power policy world uninitialized_W uninitialized_P theta updates
        updateEpisode episodeLength o = Some (theta', o')) /\
  power policy world uninitialized_W uninitialized_P theta 0 updateEpisode
    episodeLength o = Some (theta, o).
Proof.
  intros Hu Hn Hlen.
  assert (Heq : power policy world uninitialized_W uninitialized_P theta
                  updates updateEpisode episodeLength o
                = improve policy world uninitialized_W uninitialized_P
                    (N.to_nat updates) theta updateEpisode episodeLength o).
  { unfold power. rewrite for_loop_fold by (assumption || lia).
    rewrite N.sub_0_r. apply power_fold. }
  split; [exact Heq|]. split; [|reflexivity].
  rewrite Heq. now apply improve_total.
Qed.

Lemma power_iterates_witness :
  SizeT.in_range 2 /\ SizeT.in_range 2 /\ SizeT.in_range 5 /\
  power Exact.half_noise_policy Exact.counting_world 7%Q 8%Q (1 # 3)%Q 2 2 5 tt
  = improve Exact.half_noise_policy Exact.counting_world 7%Q 8%Q 2
      (1 # 3)%Q 2 5 tt.
Proof.
  split; [reflexivity|]. split; [reflexivity|]. split; [reflexivity|].
  apply (power_iterates (L := Exact.dim1) Exact.half_noise_policy
           Exact.counting_world 7%Q 8%Q (1 # 3)%Q 2 2 5 tt); reflexivity.
Defined.



(** C4, as amended.  With sigma [0], [episode] raises nothing: it returns
    normally.  The weight of every step with index above 0 is scaled by the
    reciprocal of a zero quadratic form; for a finite state that weight is
    an infinity or NaN, and it is added into the returned weight sum, which
    is then an infinity or NaN as well. *)
Theorem sigma_zero_propagates {Omega : Type}
    (policy : NoisePolicy (L := Binary64.dim1) Omega)
    (world : IWorld (L := Binary64.dim1) Omega)
    (theta weightRewards epsilonRewards : float) (episodeLength : N)
    (o : Omega) :
  SizeT.in_range episodeLength ->
  exists r total weightRewards' epsilonRewards',
    rollout policy world theta episodeLength o = Some r /\
    episode policy world theta weightRewards epsilonRewards 0%float
      episodeLength o
    = Some (total, weightRewards', epsilonRewards', omega r) /\
    forall (i : N) (state_i : float),
      0 < i < step r ->
      nth_error (states r) (N.to_nat i) = Some state_i ->
      is_finite state_i = true ->
      exists weight,
        step_weight (L := Binary64.dim1) 0%float (states r) i = Some weight /\
        is_finite weight = false /\
        is_finite weightRewards' = false.
Proof.
  intros Hrange.
  destruct (episode_spec policy world theta weightRewards epsilonRewards
              0%float episodeLength o Hrange)
    as (r & Hrun & (Hr & _ & Hs) & _ & Hep).
  exists r. do 3 eexists.
  split; [exact Hrun|]. split; [exact Hep|].
  intros i s [Hpos Hlt] Hsi Hfin.
  assert (Hw : step_weight (L := Binary64.dim1) 0%float (states r) i
               = Some (scaled_outer (L := Binary64.dim1) 0%float s)).
  { unfold step_weight.
    replace (i =? 0) with false by (symmetry; apply N.eqb_neq; lia).
    rewrite Hsi. reflexivity. }
  exists (scaled_outer (L := Binary64.dim1) 0%float s).
  split; [exact Hw|].
  split; [now apply scaled_outer_sigma_zero|].
  unfold SizeT.size in Hr, Hs.
  destruct (nth_error_in_range (reward_to_go (rewards r)) (N.to_nat i))
    as [q Hq]; [rewrite reward_to_go_length; lia|].
  apply (weight_sum_nonfinite _ _ (N.to_nat i)
           (scaled_outer (L := Binary64.dim1) 0%float s) q); [|exact Hq|].
  - rewrite <- (step_weight_nth (L := Binary64.dim1)) by lia.
    rewrite Nnat.N2Nat.id. exact Hw.
  - now apply scaled_outer_sigma_zero.
Qed.

Lemma sigma_zero_propagates_witness :
  SizeT.in_range 3 /\
  exists r total weightRewards' epsilonRewards',
    rollout (Binary64.zero_noise_policy Binary64.linear)
      (Binary64.constant_reward_world 1 Binary64.advance) 0.25%float 3 tt
    = Some r /\
    episode (Binary64.zero_noise_policy Binary64.linear)
      (Binary64.constant_reward_world 1 Binary64.advance) 0.25%float 7%float
      8%float 0%float 3 tt
    = Some (total, weightRewards', epsilonRewards', omega r) /\
    forall (i : N) (state_i : float),
      0 < i < step r ->
      nth_error (states r) (N.to_nat i) = Some state_i ->
      is_finite state_i = true ->
      exists weight,
        step_weight (L := Binary64.dim1) 0%float (states r) i = Some weight /\
        is_finite weight = false /\
        is_finite weightRewards' = false.
Proof.
  split; [reflexivity|].
  apply (sigma_zero_propagates
           (Binary64.zero_noise_policy Binary64.linear)
           (Binary64.constant_reward_world 1 Binary64.advance)
           0.25%float 7%float 8%float 3 tt).
  reflexivity.
Defined.

(** C4 as stated fails: with sigma [0] the call returns normally, and the
    sums it returns are an infinity and NaN. *)
Lemma sigma_zero_counterexample :
  episode (L := Binary64.dim1) (Binary64.zero_noise_policy Binary64.linear)
    (Binary64.constant_reward_world 1 Binary64.advance) 0.25%float 7%float
    8%float 0%float 3 tt
  = Some (3%float, infinity, nan, tt) /\
  is_finite infinity = false /\ is_nan nan = true.
Proof.
  split; [vm_compute; reflexivity|]. split; reflexivity.
Qed.

(** C9, as amended.  In a one-dimensional binary64 world with constant
    reward 1 per step, episodes of 3 steps and exploration noise fixed to
    zero, [episode] returns the total return 3 and the weight of step 0 is
    1.  For every batch of at least one episode, the update vector is
    finite and zero provided the weights of the states of steps 1 and 2 of
    every episode of the batch are finite; when one of these weights is an
    infinity or NaN, the update vector is NaN.  With one episode the mean
    return is 3. *)
Theorem scenario_A {Omega : Type}
    (next mean : Omega -> float -> float -> float * Omega)
    (theta update uninitialized_W uninitialized_P : float) :
  let policy := Binary64.zero_noise_policy mean in
  let world := Binary64.constant_reward_world 1 next in
  (forall o : Omega,
      exists r weight_sum noise_weighted_sum,
        rollout policy world theta 3 o = Some r /\
        step r = 3 /\
        episode policy world theta uninitialized_W uninitialized_P 0.5%float
          3 o
        = Some (3%float, weight_sum, noise_weighted_sum, omega r) /\
        step_weight (L := Binary64.dim1) 0.5%float (states r) 0
        = Some 1%float) /\
  (forall (num_episodes : N) (o : Omega),
      1 <= num_episodes -> SizeT.in_range num_episodes ->
      exists trajectories mean_return update_vector o',
        batch_rollouts policy world (N.to_nat num_episodes) theta 3 o
        = Some trajectories /\
        length trajectories = N.to_nat num_episodes /\
        Forall (fun r => length (states r) = 3%nat) trajectories /\
        episodes policy world uninitialized_W uninitialized_P theta update
          num_episodes 3 o
        = Some (mean_return, update_vector, o') /\
        (num_episodes = 1 -> mean_return = 3%float) /\
        (Forall
           (fun r =>
              forall s, In s (tl (states r)) ->
                        is_finite
                          (scaled_outer (L := Binary64.dim1) 0.5%float s)
                        = true) trajectories ->
         is_finite update_vector = true /\ is_zero update_vector = true) /\
        (Exists
           (fun r =>
              exists s, In s (tl (states r)) /\
                        is_finite
                          (scaled_outer (L := Binary64.dim1) 0.5%float s)
                        = false) trajectories ->
         is_nan update_vector = true)).
Proof.
  intros policy world. split.
  - intros o.
    destruct (scenario_episode next mean theta uninitialized_W
                uninitialized_P o)
      as (r & W & E & Hrun & H3 & _ & Hep & H0 & _).
    exists r, W, E. auto.
  - intros n o Hn Hrange.
    destruct (scenario_batch next mean theta uninitialized_W uninitialized_P
                (N.to_nat n) o)
      as (rs & results & o' & Hrs & Hrun & Hlen & Hlen' & Hlens & Htot
          & Hfin & Hnan).
    exists rs.
    rewrite episodes_average by exact Hrange.
    unfold average_episodes. fold policy world.
    unfold policy, world. rewrite Hrun. cbn [bind].
    do 3 eexists. split; [exact Hrs|]. split; [exact Hlen|].
    split; [exact Hlens|]. split; [reflexivity|].
    split; [|split].
    + intros ->. change (N.to_nat 1) with 1%nat in Hlen'.
      destruct results as [|x [|]]; try (simpl in Hlen'; lia).
      apply Forall_cons_iff in Htot. destruct Htot as [Hx _].
      unfold d_sum. simpl. rewrite Hx. vm_compute. reflexivity.
    + intros Hall. specialize (Hfin Hall).
      assert (Hne : results <> [])
        by (destruct results; [simpl in Hlen'; lia | discriminate]).
      match goal with
      | |- context [@P_sum _ ?l] =>
          assert (HE : @P_sum Binary64.dim1 l = 0%float)
      end.
      { unfold P_sum. apply sum_zero. apply Forall_map.
        revert Hfin. apply Forall_impl. intros x (_ & Hx). exact Hx. }
      match goal with
      | |- context [@W_sum _ ?l] =>
          assert (HW : Binary64.sf_heavy (-51)
                         (Prim2SF (@W_sum Binary64.dim1 l)) = true)
      end.
      { unfold W_sum. apply sum_heavy; [lia | |].
        - destruct results; [congruence | discriminate].
        - apply Forall_map.
          revert Hfin. apply Forall_impl. intros x (Hx & _). exact Hx. }
      rewrite HE.
      apply (update_zero _ n); [|exact HW].
      unfold SizeT.in_range, SizeT.modulus in Hrange. lia.
    + intros Hex. specialize (Hnan Hex).
      match goal with
      | |- is_nan ?u = true => replace u with nan; [reflexivity|]
      end.
      symmetry. unfold P_sum. apply update_nan. exact Hnan.
Qed.

Lemma scenario_A_witness :
  exists mean_return update_vector,
    episodes (Binary64.zero_noise_policy Binary64.linear)
      (Binary64.constant_reward_world 1 Binary64.advance) 7%float 8%float
      0.25%float 9%float 2 3 tt
    = Some (mean_return, update_vector, tt) /\
    is_finite update_vector = true /\
    is_zero update_vector = true.
Proof.
  destruct (proj2 (scenario_A Binary64.advance Binary64.linear 0.25%float
                     9%float 7%float 8%float) 2 tt)
    as (rs & m & u & [] & Hrs & _ & _ & Hep & _ & Hupdate & _);
    [vm_compute; discriminate | reflexivity|].
  vm_compute in Hrs. injection Hrs as <-.
  exists m, u. split; [exact Hep|].
  apply Hupdate.
  repeat constructor; intros s [<-|[<-|[]]]; vm_compute; reflexivity.
Defined.

(** C9 as stated fails in the world whose state stays where it is: the
    states of steps 1 and 2 are zero, their weights are [0 * (1 / 0)], NaN,
    and so is the update vector.  A state that is not zero is not enough:
    for the state [2^600] the square overflows and the weight is
    [infinity * (1 / infinity)], NaN again. *)
Lemma scenario_A_counterexample :
  episodes (L := Binary64.dim1) (Binary64.zero_noise_policy Binary64.linear)
    (Binary64.constant_reward_world 1 Binary64.stay) 7%float 8%float
    0.25%float 9%float 1 3 tt
  = Some (3%float, nan, tt) /\
  is_finite nan = false /\ is_zero nan = false /\
  episodes (L := Binary64.dim1) (Binary64.zero_noise_policy Binary64.linear)
    (Binary64.constant_reward_world 1
       (fun (o : unit) (s a : float) => (0x1p+600%float, o)))
    7%float 8%float 0.25%float 9%float 1 3 tt
  = Some (3%float, nan, tt) /\
  is_finite 0x1p+600%float = true /\ is_zero 0x1p+600%float = false.
Proof.
  split; [vm_compute; reflexivity|]. split; [reflexivity|].
  split; [reflexivity|]. split; [vm_compute; reflexivity|].
  split; reflexivity.
Qed.

(** * Further properties of the header *)

(** ** The rollout loop *)

Section RolloutShape.

Context {L : LinAlg} {Omega : Type}.
Variable policy : NoisePolicy Omega.
Variable world : IWorld Omega.

Lemma extends_refl (a : Rollout Omega) : extends a a.
Proof. repeat split; exists []; now rewrite app_nil_r. Qed.

Lemma extends_with_omega (a : Rollout Omega) (o : Omega) :
  extends a (with_omega a o).
Proof. repeat split; exists []; simpl; now rewrite app_nil_r. Qed.

Lemma extends_trans (a b c : Rollout Omega) :
  extends a b -> extends b c -> extends a c.
Proof.
  intros ([r1 H1] & [e1 H2] & [s1 H3]) ([r2 H4] & [e2 H5] & [s2 H6]).
  repeat split.
  - exists (r1 ++ r2). now rewrite H4, H1, app_assoc.
  - exists (e1 ++ e2). now rewrite H5, H2, app_assoc.
  - exists (s1 ++ s2). now rewrite H6, H3, app_assoc.
Qed.

Lemma rollout_body_extends (theta : TParameter) (r : Rollout Omega) :
  extends r (rollout_body policy world theta r).
Proof.
  unfold rollout_body.
  destruct (policy (omega r) theta (state r)) as [[action epsilon] o1].
  destruct (act world o1 (state r) action) as [[reward nextState] o2].
  repeat split; simpl; eexists; reflexivity.
Qed.

Lemma rollout_loop_extends (theta : TParameter) (episodeLength : N) :
  forall (fuel : nat) (r b : Rollout Omega),
    rollout_loop policy world fuel theta episodeLength r = Some b ->
    extends r b.
Proof.
  induction fuel as [|fuel IH]; intros r b Hrun; [discriminate|].
  simpl in Hrun.
  pose proof (rollout_body_extends theta r) as Hbody.
  destruct (step (rollout_body policy world theta r) <? episodeLength).
  - destruct (isTerminal world _ _) as [terminal o1].
    destruct terminal; simpl in Hrun.
    + injection Hrun as <-. exact Hbody.
    + apply (extends_trans _ _ _ Hbody). apply (IH _ _ Hrun).
  - injection Hrun as <-. exact Hbody.
Qed.

(** Two runs of the loop from the same variables, the second with the
    larger step limit: the second records what the first records, and
    possibly more. *)
Lemma rollout_loop_limit (theta : TParameter) (shorter longer : N) :
  shorter <= longer ->
  forall (fuel fuel' : nat) (r a b : Rollout Omega),
    rollout_loop policy world fuel theta shorter r = Some a ->
    rollout_loop policy world fuel' theta longer r = Some b ->
    extends a b.
Proof.
  intros Hle fuel.
  induction fuel as [|fuel IH]; intros fuel' r a b Ha Hb; [discriminate|].
  destruct fuel' as [|fuel']; [discriminate|].
  simpl in Ha, Hb.
  set (r1 := rollout_body policy world theta r) in *.
  destruct (step r1 <? shorter) eqn:Hs.
  - apply N.ltb_lt in Hs.
    replace (step r1 <? longer) with true in Hb
      by (symmetry; apply N.ltb_lt; lia).
    destruct (isTerminal world (omega r1) (state r1)) as [terminal o1].
    destruct terminal; simpl in Ha, Hb.
    + injection Ha as <-. injection Hb as <-. apply extends_refl.
    + apply (IH _ _ _ _ Ha Hb).
  - injection Ha as <-.
    destruct (step r1 <? longer).
    + destruct (isTerminal world (omega r1) (state r1)) as [terminal o1].
      destruct terminal; simpl in Hb.
      * injection Hb as <-. apply extends_with_omega.
      * apply (extends_trans _ _ _ (extends_with_omega r1 o1)).
        apply (rollout_loop_extends _ _ _ _ _ Hb).
    + injection Hb as <-. apply extends_refl.
Qed.

(** Whatever holds after the first round of the loop, and is kept by every
    further round and by the terminal test, holds of the result. *)
Lemma rollout_after_first_round (K : Rollout Omega -> Prop)
    (theta : TParameter) (episodeLength : N) (o : Omega) (r : Rollout Omega) :
  (forall r0, K r0 -> K (rollout_body policy world theta r0)) ->
  (forall r0 o0, K r0 -> K (with_omega r0 o0)) ->
  K (rollout_body policy world theta
       {| state := P_Zero; rewards := []; epsilons := []; states := [];
          step := 0; omega := o |}) ->
  rollout policy world theta episodeLength o = Some r -> K r.
Proof.
  intros Hbody Homega. unfold rollout.
  generalize (S (N.to_nat episodeLength)) as fuel.
  generalize {| state := P_Zero; rewards := @nil double; epsilons := [];
                states := []; step := 0; omega := o |} as r0.
  intros r0 fuel; revert r0.
  induction fuel as [|fuel IH]; intros r0 H0 Hrun; [discriminate|].
  simpl in Hrun.
  destruct (step (rollout_body policy world theta r0) <? episodeLength).
  - destruct (isTerminal world _ _) as [terminal o1].
    destruct terminal; simpl in Hrun.
    + injection Hrun as <-. auto.
    + apply (IH _ (Hbody _ (Homega _ o1 H0)) Hrun).
  - injection Hrun as <-. auto.
Qed.

End RolloutShape.

(** X1.  In a world that reports every state terminal, [episode] records
    exactly one transition, whatever the step limit is: the body of the
    loop runs once before the world is asked. *)
Theorem terminal_world_records_one_step {L : LinAlg} {Omega : Type}
    (policy : NoisePolicy Omega) (world : IWorld Omega)
    (theta : TParameter) (episodeLength : N) (o : Omega) :
  (forall o0 s, fst (isTerminal world o0 s) = true) ->
  exists r,
    rollout policy world theta episodeLength o = Some r /\
    recorded r /\ step r = 1.
Proof.
  intros Hterminal. unfold rollout. cbn [rollout_loop].
  set (r1 := rollout_body policy world theta _).
  assert (Hstep : step r1 = 1) by (unfold r1; now rewrite rollout_body_step).
  assert (Hrec : recorded r1).
  { destruct (rollout_body_sizes policy world theta
                {| state := P_Zero; rewards := []; epsilons := [];
                   states := []; step := 0; omega := o |})
      as (Hr & He & Hs).
    fold r1 in Hr, He, Hs. unfold recorded.
    rewrite Hr, He, Hs, Hstep. auto. }
  destruct (step r1 <? episodeLength).
  - pose proof (Hterminal (omega r1) (state r1)) as Ht.
    destruct (isTerminal world (omega r1) (state r1)) as [terminal o1].
    simpl in Ht. subst terminal. simpl.
    exists (with_omega r1 o1). auto.
  - exists r1. auto.
Qed.

Lemma terminal_world_records_one_step_witness :
  (forall (o0 : unit) (s : Q), fst (isTerminal Exact.closed_world o0 s) = true) /\
  exists r,
    rollout Exact.half_noise_policy Exact.closed_world (1 # 3)%Q 10 tt
    = Some r /\
    recorded r /\ step r = 1.
Proof.
  split; [intros o0 s; reflexivity|].
  apply (terminal_world_records_one_step (L := Exact.dim1)
           Exact.half_noise_policy Exact.closed_world (1 # 3)%Q 10 tt).
  intros o0 s; reflexivity.
Defined.

(** X2.  In a world that never reports a terminal state, [episode] records
    exactly as many transitions as the step limit says, and one when the
    limit is 0. *)
Theorem open_world_runs_to_limit {L : LinAlg} {Omega : Type}
    (policy : NoisePolicy Omega) (world : IWorld Omega)
    (theta : TParameter) (episodeLength : N) (o : Omega) :
  SizeT.in_range episodeLength ->
  (forall o0 s, fst (isTerminal world o0 s) = false) ->
  exists r,
    rollout policy world theta episodeLength o = Some r /\
    recorded r /\ step r = N.max 1 episodeLength.
Proof.
  intros Hrange Hnever.
  destruct (rollout_total policy world theta episodeLength o Hrange)
    as (r & Hrun & Hrec & Hlo & Hhi).
  pose proof (rollout_never_terminal policy world theta episodeLength o r
                Hnever Hrun) as Hge.
  exists r. split; [exact Hrun|]. split; [exact Hrec|]. lia.
Qed.

Lemma open_world_runs_to_limit_witness :
  SizeT.in_range 4 /\
  (forall (o0 : unit) (s : Q), fst (isTerminal Exact.open_world o0 s) = false) /\
  exists r,
    rollout Exact.half_noise_policy Exact.open_world (1 # 3)%Q 4 tt = Some r /\
    recorded r /\ step r = N.max 1 4.
Proof.
  split; [reflexivity|]. split; [intros o0 s; reflexivity|].
  apply (open_world_runs_to_limit (L := Exact.dim1)
           Exact.half_noise_policy Exact.open_world (1 # 3)%Q 4 tt);
    [reflexivity | intros o0 s; reflexivity].
Defined.

(** X3.  Every episode starts from the zero vector: the first recorded
    state is [TParameter::Zero()], whatever the world and the policy do. *)
Theorem rollout_starts_at_zero {L : LinAlg} {Omega : Type}
    (policy : NoisePolicy Omega) (world : IWorld Omega)
    (theta : TParameter) (episodeLength : N) (o : Omega) :
  SizeT.in_range episodeLength ->
  exists r later,
    rollout policy world theta episodeLength o = Some r /\
    states r = P_Zero :: later.
Proof.
  intros Hrange.
  destruct (rollout_total policy world theta episodeLength o Hrange)
    as (r & Hrun & _).
  assert (K : exists later, states r = P_Zero :: later).
  { revert Hrun.
    apply (rollout_after_first_round policy world
             (fun r0 => exists later, states r0 = P_Zero :: later)).
    - intros r0 [later Hl].
      destruct (rollout_body_extends policy world theta r0)
        as (_ & _ & [more Hm]).
      exists (later ++ more). now rewrite Hm, Hl.
    - intros r0 o0 H0. exact H0.
    - unfold rollout_body. cbn [omega state].
      destruct (policy o theta P_Zero) as [[action epsilon] o1].
      destruct (act world o1 P_Zero action) as [[reward nextState] o2].
      exists []. reflexivity. }
  destruct K as [later Hl]. exists r, later. auto.
Qed.

Lemma rollout_starts_at_zero_witness :
  SizeT.in_range 4 /\
  exists r later,
    rollout Exact.half_noise_policy Exact.open_world (1 # 3)%Q 4 tt = Some r /\
    states r = 0%Q :: later.
Proof.
  split; [reflexivity|].
  apply (rollout_starts_at_zero (L := Exact.dim1) Exact.half_noise_policy
           Exact.open_world (1 # 3)%Q 4 tt).
  reflexivity.
Defined.

(** X4.  Raising the step limit only adds to the trajectory: from the same
    collaborator state, the rewards, noise samples and states recorded
    under the smaller limit are a prefix of those recorded under the larger
    one. *)
Theorem longer_limit_extends_trajectory {L : LinAlg} {Omega : Type}
    (policy : NoisePolicy Omega) (world : IWorld Omega)
    (theta : TParameter) (shorter longer : N) (o : Omega)
    (a b : Rollout Omega) :
  shorter <= longer ->
  rollout policy world theta shorter o = Some a ->
  rollout policy world theta longer o = Some b ->
  extends a b.
Proof.
  intros Hle Ha Hb.
  apply (rollout_loop_limit policy world theta shorter longer Hle _ _ _ _ _
           Ha Hb).
Qed.

Lemma longer_limit_extends_trajectory_witness :
  2 <= 4 /\
  exists a b,
    rollout Exact.half_noise_policy Exact.open_world (1 # 3)%Q 2 tt = Some a /\
    rollout Exact.half_noise_policy Exact.open_world (1 # 3)%Q 4 tt = Some b /\
    extends a b.
Proof.
  split; [vm_compute; discriminate|].
  eexists. eexists.
  split; [vm_compute; reflexivity|]. split; [vm_compute; reflexivity|].
  apply (longer_limit_extends_trajectory (L := Exact.dim1)
           Exact.half_noise_policy Exact.open_world (1 # 3)%Q 2 4 tt);
    [vm_compute; discriminate | vm_compute; reflexivity
     | vm_compute; reflexivity].
Defined.

(** X5.  With a step limit of 0 or 1 the outputs of [episode] do not depend
    on sigma: sigma enters only the weights of steps with index above 0. *)
Theorem short_episode_ignores_sigma {L : LinAlg} {Omega : Type}
    (policy : NoisePolicy Omega) (world : IWorld Omega)
    (theta : TParameter) (weightRewards : TWeight)
    (epsilonRewards : TParameter) (sigma sigma' : double)
    (episodeLength : N) (o : Omega) :
  episodeLength <= 1 ->
  episode policy world theta weightRewards epsilonRewards sigma
    episodeLength o
  = episode policy world theta weightRewards epsilonRewards sigma'
      episodeLength o.
Proof.
  intros Hshort.
  assert (Hrange : SizeT.in_range episodeLength)
    by (unfold SizeT.in_range, SizeT.modulus; lia).
  destruct (episode_spec policy world theta weightRewards epsilonRewards
              sigma episodeLength o Hrange)
    as (r & Hrun & (_ & _ & Hs) & Hstep & Hep).
  destruct (episode_spec policy world theta weightRewards epsilonRewards
              sigma' episodeLength o Hrange)
    as (r' & Hrun' & _ & _ & Hep').
  rewrite Hrun in Hrun'. injection Hrun' as <-.
  rewrite Hep, Hep'.
  unfold SizeT.size in Hs.
  destruct (states r) as [|s0 [|s1 later]]; simpl in Hs; try lia.
  reflexivity.
Qed.

Lemma short_episode_ignores_sigma_witness :
  1 <= 1 /\
  episode Exact.half_noise_policy Exact.open_world (1 # 3)%Q 7%Q 8%Q
    (1 # 2)%Q 1 tt
  = episode Exact.half_noise_policy Exact.open_world (1 # 3)%Q 7%Q 8%Q
      0%Q 1 tt.
Proof.
  split; [vm_compute; discriminate|].
  apply (short_episode_ignores_sigma (L := Exact.dim1)
           Exact.half_noise_policy Exact.open_world (1 # 3)%Q 7%Q 8%Q
           (1 # 2)%Q 0%Q 1 tt).
  vm_compute; discriminate.
Defined.

(** ** Rewards-to-go *)


(** X6.  After the reward-to-go pass every entry is the rewards from its
    own step to the end of the episode, added up from the last to the first
    starting from [0.0] (the comment above the loop); no law of arithmetic
    is assumed, so this is also the order of the binary64 additions. *)
Theorem reward_to_go_suffix_sums {L : LinAlg} (rs : list double) (i : nat) :
  (i < length rs)%nat ->
  nth_error (reward_to_go rs) i
  = Some (fold_right (fun x acc => d_plus acc x) d_zero (skipn i rs)).
Proof.
  revert i.
  induction rs as [|r rs IH]; intros i Hi; [simpl in Hi; lia|].
  rewrite reward_to_go_cons.
  destruct i as [|i]; simpl.
  - now rewrite reward_to_go_hd_fold.
  - apply IH. simpl in Hi. lia.
Qed.

Lemma reward_to_go_suffix_sums_witness :
  (0 < length [1e16; 1; 1]%float)%nat /\
  nth_error (reward_to_go (L := Binary64.dim1) [1e16; 1; 1]%float) 0
  = Some (0 + 1 + 1 + 1e16)%float.
Proof.
  split; [simpl; lia|].
  apply (reward_to_go_suffix_sums (L := Binary64.dim1) [1e16; 1; 1]%float 0).
  simpl; lia.
Defined.

Section Binary64Rewards.

Import Binary64.
Local Open Scope float_scope.



End Binary64Rewards.

(** X7.  In binary64, all NaNs taken as one value, the last entry of the
    rewards-to-go is the last reward itself unless that reward is [-0.0]:
    then the entry is [+0.0], because the running sum starts at [+0.0]. *)
Theorem last_reward_to_go_binary64 (front : list float) (r_n : float) :
  (r_n <> (-0)%float ->
   nth_error (reward_to_go (L := Binary64.dim1) (front ++ [r_n]))
     (length front) = Some r_n) /\
  (r_n = (-0)%float ->
   nth_error (reward_to_go (L := Binary64.dim1) (front ++ [r_n]))
     (length front) = Some 0%float).
Proof.
  assert (Hlast : nth_error (front ++ [r_n]) (length front) = Some r_n).
  { rewrite nth_error_app2, Nat.sub_diag by lia. reflexivity. }
  assert (Hnone : nth_error (reward_to_go (L := Binary64.dim1) (front ++ [r_n]))
                    (S (length front)) = None).
  { apply nth_error_None.
    rewrite (reward_to_go_length (L := Binary64.dim1)), length_app.
    simpl. lia. }
  pose proof (reward_to_go_nth (L := Binary64.dim1) (front ++ [r_n])
                (length front) r_n Hlast) as H.
  rewrite Hnone in H. simpl in H.
  split; intros Hr; refine (eq_trans H _); f_equal.
  - now apply add_zero_l.
  - subst r_n. reflexivity.
Qed.





(** ** Batches and updates *)

Section BatchShape.

Context {L : LinAlg} {Omega : Type}.
Variable policy : NoisePolicy Omega.
Variable world : IWorld Omega.

Lemma for_loop_ext {St : Type} (body body' : N -> St -> option St)
    (bound : N) :
  (forall i s, body i s = body' i s) ->
  forall (fuel : nat) (i : N) (s : St),
    for_loop fuel i bound body s = for_loop fuel i bound body' s.
Proof.
  intros Hext fuel.
  induction fuel as [|fuel IH]; intros i s; [reflexivity|].
  simpl. destruct (i <? bound); [|reflexivity].
  rewrite Hext. destruct (body' i s) as [s'|]; simpl; [apply IH|reflexivity].
Qed.

(** The loop body of [episodes] does not read what the two locals hold
    before [episode] is called. *)
Lemma episodes_body_locals (uW uW' : TWeight) (uP uP' : TParameter)
    (theta : TParameter) (episodeLength : N) (i : N)
    (acc : TWeight * TParameter * double * Omega) :
  episodes_body policy world uW uP theta episodeLength i acc
  = episodes_body policy world uW' uP' theta episodeLength i acc.
Proof.
  destruct acc as [[[sumW sumE] sumR] o].
  unfold episodes_body, episode.
  destruct (rollout policy world theta episodeLength o) as [r|];
    [|reflexivity].
  reflexivity.
Qed.

Lemma episodes_locals (uW uW' : TWeight) (uP uP' : TParameter)
    (theta update update' : TParameter) (updateEpisode episodeLength : N)
    (o : Omega) :
  episodes policy world uW uP theta update updateEpisode episodeLength o
  = episodes policy world uW' uP' theta update' updateEpisode episodeLength o.
Proof.
  unfold episodes.
  rewrite (for_loop_ext _
             (episodes_body policy world uW' uP' theta episodeLength));
    [reflexivity|].
  intros i s. apply episodes_body_locals.
Qed.

Lemma power_improve (uW : TWeight) (uP : TParameter) (theta : TParameter)
    (updates updateEpisode episodeLength : N) (o : Omega) :
  SizeT.in_range updates ->
  power policy world uW uP theta updates updateEpisode episodeLength o
  = improve policy world uW uP (N.to_nat updates) theta updateEpisode
      episodeLength o.
Proof.
  intros Hu. unfold power. rewrite for_loop_fold by (assumption || lia).
  rewrite N.sub_0_r. apply power_fold.
Qed.

Lemma improve_app (uW : TWeight) (uP : TParameter)
    (updateEpisode episodeLength : N) :
  forall (m n : nat) (theta : TParameter) (o : Omega),
    improve policy world uW uP (m + n) theta updateEpisode episodeLength o
    = bind (improve policy world uW uP m theta updateEpisode episodeLength o)
        (fun p =>
           improve policy world uW uP n (fst p) updateEpisode episodeLength
             (snd p)).
Proof.
  induction m as [|m IH]; intros n theta o; [reflexivity|].
  cbn [Nat.add improve].
  destruct (episodes policy world uW uP theta uP updateEpisode episodeLength o)
    as [[[mean update] o1]|]; [|reflexivity].
  cbn [bind]. apply IH.
Qed.

End BatchShape.

(** X10.  The indeterminate contents of the locals that [episodes] and
    [power] declare without initialiser ([weightRewards], [epsilonRewards],
    [update]) never reach a result: any two choices of them, and of the
    incoming out-parameter [update], give the same outputs. *)
Theorem uninitialized_locals_unread {L : LinAlg} {Omega : Type}
    (policy : NoisePolicy Omega) (world : IWorld Omega)
    (uW uW' : TWeight) (uP uP' : TParameter)
    (theta update update' : TParameter)
    (updates updateEpisode episodeLength : N) (o : Omega) :
  episodes policy world uW uP theta update updateEpisode episodeLength o
  = episodes policy world uW' uP' theta update' updateEpisode episodeLength o
  /\
  power policy world uW uP theta updates updateEpisode episodeLength o
  = power policy world uW' uP' theta updates updateEpisode episodeLength o.
Proof.
  split; [apply episodes_locals|].
  unfold power. apply for_loop_ext.
  intros i [theta0 o0]. unfold power_body.
  now rewrite (episodes_locals policy world uW uW' uP uP' theta0 uP uP').
Qed.

(** X11.  Updates compose: [m + n] rounds of [power] are [m] rounds
    followed by [n] rounds that continue from the theta and the
    collaborator state the first [m] left. *)
Theorem power_composes {L : LinAlg} {Omega : Type}
    (policy : NoisePolicy Omega) (world : IWorld Omega)
    (uninitialized_W : TWeight) (uninitialized_P : TParameter)
    (theta : TParameter) (m n updateEpisode episodeLength : N) (o : Omega) :
  SizeT.in_range (m + n) ->
  power policy world uninitialized_W uninitialized_P theta (m + n)
    updateEpisode episodeLength o
  = bind (power policy world uninitialized_W uninitialized_P theta m
            updateEpisode episodeLength o)
      (fun p =>
         power policy world uninitialized_W uninitialized_P (fst p) n
           updateEpisode episodeLength (snd p)).
Proof.
  intros Hrange.
  assert (Hm : SizeT.in_range m) by (unfold SizeT.in_range in *; lia).
  assert (Hn : SizeT.in_range n) by (unfold SizeT.in_range in *; lia).
  rewrite !power_improve by assumption.
  rewrite Nnat.N2Nat.inj_add, improve_app.
  destruct (improve policy world uninitialized_W uninitialized_P (N.to_nat m)
              theta updateEpisode episodeLength o) as [[theta' o']|];
    [|reflexivity].
  cbn [bind fst snd]. now rewrite power_improve.
Qed.

Lemma power_composes_witness :
  SizeT.in_range (1 + 2) /\
  power Exact.half_noise_policy Exact.counting_world 7%Q 8%Q (1 # 3)%Q (1 + 2)
    2 5 tt
  = bind (power Exact.half_noise_policy Exact.counting_world 7%Q 8%Q
            (1 # 3)%Q 1 2 5 tt)
      (fun p =>
         power Exact.half_noise_policy Exact.counting_world 7%Q 8%Q (fst p) 2
           2 5 (snd p)).
Proof.
  split; [reflexivity|].
  apply (power_composes (L := Exact.dim1) Exact.half_noise_policy
           Exact.counting_world 7%Q 8%Q (1 # 3)%Q 1 2 2 5 tt).
  reflexivity.
Defined.

Section Binary64Batch.

Import Binary64.

Context {Omega : Type}.
Variable policy : NoisePolicy (L := dim1) Omega.
Variable world : IWorld (L := dim1) Omega.
Variable uninitialized_W uninitialized_P : float.




End Binary64Batch.






(** X15.  The total reward that [episode] returns is the recorded rewards
    added up from the last to the first, starting from [0.0]; this fixes
    the order of the additions, which matters in floating point. *)
Theorem total_reward_summation_order {L : LinAlg} {Omega : Type}
    (policy : NoisePolicy Omega) (world : IWorld Omega)
    (theta : TParameter) (weightRewards : TWeight)
    (epsilonRewards : TParameter) (sigma : double) (episodeLength : N)
    (o : Omega) :
  SizeT.in_range episodeLength ->
  exists r weightRewards' epsilonRewards',
    rollout policy world theta episodeLength o = Some r /\
    episode policy world theta weightRewards epsilonRewards sigma
      episodeLength o
    = Some (fold_right (fun x acc => d_plus acc x) d_zero (rewards r),
            weightRewards', epsilonRewards', omega r).
Proof.
  intros Hrange.
  destruct (episode_spec policy world theta weightRewards epsilonRewards
              sigma episodeLength o Hrange)
    as (r & Hrun & _ & _ & Hep).
  exists r. do 2 eexists. split; [exact Hrun|].
  rewrite Hep. f_equal. f_equal. f_equal. f_equal.
  generalize (rewards r) as rs.
  induction rs as [|x rs IH]; [reflexivity|].
  rewrite reward_to_go_cons. simpl. now rewrite IH.
Qed.

Lemma total_reward_summation_order_witness :
  SizeT.in_range 4 /\
  exists r weightRewards' epsilonRewards',
    rollout Exact.half_noise_policy Exact.open_world (1 # 3)%Q 4 tt = Some r /\
    episode Exact.half_noise_policy Exact.open_world (1 # 3)%Q 7%Q 8%Q
      (1 # 2)%Q 4 tt
    = Some (fold_right (fun x acc => Qplus acc x) 0%Q (rewards r),
            weightRewards', epsilonRewards', omega r).
Proof.
  split; [reflexivity|].
  apply (total_reward_summation_order (L := Exact.dim1)
           Exact.half_noise_policy Exact.open_world (1 # 3)%Q 7%Q 8%Q
           (1 # 2)%Q 4 tt).
  reflexivity.
Defined.
